(** * SmartEcom: matching-and-pricing pipeline of KrogerController.js

    A shallow embedding of the parts of
    [backend/controllers/KrogerController.js] that decide the ingredient
    extraction, the index-match stage, the unit-price normaliser and winner
    selector, the Walmart term selection and the cart synchronisation engine.

    Modelling conventions.
    - JS strings are byte strings ([string] of [ascii]); text is UTF-8.
      [toLowerCase] is modelled on ASCII letters only.
    - JS numbers are modelled by [jsnum]: a finite value is an exact rational
      ([Q]); NaN and the infinities are separate constructors.  Rounding of
      doubles is not modelled, so the decimal constants of the unit parser are
      exact rationals.
    - Regular expressions of the source are run by a small backtracking
      matcher with the ECMAScript semantics of the constructs used: greedy
      quantifiers, ordered alternation, capture groups, [\b]. *)

From Stdlib Require Import QArith Lia Ascii String.
From stdpp Require Import base list strings gmap sorting pretty.

(** Strict comparison of numbers, [a < b]. *)
Definition Qltb (a b : Q) : bool := negb (Qle_bool b a).


(* ------------------------------------------------------------------ *)
(** ** Characters and small string helpers *)

Module Chars.

Definition code (c : ascii) : nat := nat_of_ascii c.

Definition is_digit (c : ascii) : bool :=
  (Nat.leb 48 (code c)) && (Nat.leb (code c) 57).

Definition is_upper (c : ascii) : bool :=
  (Nat.leb 65 (code c)) && (Nat.leb (code c) 90).

Definition is_lower (c : ascii) : bool :=
  (Nat.leb 97 (code c)) && (Nat.leb (code c) 122).

(** [\w] of a non-unicode JS regex: [A-Za-z0-9_]. *)
Definition is_word (c : ascii) : bool :=
  is_digit c || is_upper c || is_lower c || (Nat.eqb (code c) 95).

(** [\s] restricted to ASCII: tab, LF, VT, FF, CR, space. *)
Definition is_space (c : ascii) : bool :=
  ((Nat.leb 9 (code c)) && (Nat.leb (code c) 13)) || (Nat.eqb (code c) 32).

(** [String.prototype.toLowerCase] on ASCII letters. *)
Definition to_lower (c : ascii) : ascii :=
  if is_upper c then ascii_of_nat (code c + 32) else c.

Definition lower (s : list ascii) : list ascii := map to_lower s.

(** [s.replace(/\s+/g, " ")]. *)
Fixpoint collapse_ws (s : list ascii) : list ascii :=
  match s with
  | [] => []
  | c :: rest =>
      if is_space c then
        match collapse_ws rest with
        | c' :: rest' => if (Nat.eqb (code c') 32) then " "%char :: rest'
                         else " "%char :: c' :: rest'
        | [] => [" "%char]
        end
      else c :: collapse_ws rest
  end.

Fixpoint drop_ws (s : list ascii) : list ascii :=
  match s with
  | c :: rest => if is_space c then drop_ws rest else s
  | [] => []
  end.

(** [s.trim()] *)
Definition trim (s : list ascii) : list ascii := rev (drop_ws (rev (drop_ws s))).

(** [s.replace(/×/g, "x")]: the UTF-8 encoding of U+00D7 is C3 97. *)
Fixpoint replace_times (s : list ascii) : list ascii :=
  match s with
  | [] => []
  | c1 :: t =>
      match t with
      | c2 :: rest =>
          if Nat.eqb (code c1) 195 && Nat.eqb (code c2) 151
          then "x"%char :: replace_times rest
          else c1 :: replace_times t
      | [] => [c1]
      end
  end.

Definition lower_str (s : string) : string :=
  string_of_list_ascii (lower (list_ascii_of_string s)).

Definition trim_str (s : string) : string :=
  string_of_list_ascii (trim (list_ascii_of_string s)).

End Chars.

(* ------------------------------------------------------------------ *)
(** ** A backtracking matcher for the regular expressions of the source *)

Module Regex.
Import Chars.

Inductive regex : Type :=
| RClass (p : ascii -> bool)        (* one character satisfying [p] *)
| RSeq (r1 r2 : regex)
| RAlt (r1 r2 : regex)               (* ordered alternation [r1|r2] *)
| RStar (r : regex)                  (* greedy [r*] *)
| ROpt (r : regex)                   (* greedy [r?] *)
| RGroup (n : nat) (r : regex)       (* capture group number [n] *)
| RBound.                            (* word boundary [\b] *)

Fixpoint size (r : regex) : nat :=
  match r with
  | RClass _ | RBound => 1
  | RSeq r1 r2 | RAlt r1 r2 => S (size r1 + size r2)
  | RStar r | ROpt r | RGroup _ r => S (size r)
  end.

Definition RLit (c : ascii) : regex := RClass (fun d => Ascii.eqb c d).
Definition RPlus (r : regex) : regex := RSeq r (RStar r).

(** A literal word. *)
Fixpoint RStr (s : string) : regex :=
  match s with
  | EmptyString => RClass (fun _ => false)
  | String c EmptyString => RLit c
  | String c rest => RSeq (RLit c) (RStr rest)
  end.

(** Match state: current index and the capture list (latest first). *)
Record mstate := MState { pos : nat; caps : list (nat * (nat * nat)) }.

Section Match.
Variable s : list ascii.

Definition word_at (i : nat) : bool :=
  match nth_error s i with Some c => is_word c | None => false end.

Definition at_boundary (i : nat) : bool :=
  let before := match i with 0 => false | S j => word_at j end in
  negb (Bool.eqb before (word_at i)).

(** Continuation-passing backtracking, as in the ECMAScript matcher
    semantics; an iteration of [*] that matches the empty string fails. *)
Fixpoint m (fuel : nat) (r : regex) (st : mstate)
         (k : mstate -> option mstate) : option mstate :=
  match fuel with
  | 0 => None
  | S f =>
    match r with
    | RClass p =>
        match nth_error s (pos st) with
        | Some c => if p c then k (MState (S (pos st)) (caps st)) else None
        | None => None
        end
    | RSeq r1 r2 => m f r1 st (fun st1 => m f r2 st1 k)
    | RAlt r1 r2 =>
        match m f r1 st k with
        | Some x => Some x
        | None => m f r2 st k
        end
    | RStar r1 =>
        match m f r1 st (fun st1 =>
                if Nat.eqb (pos st1) (pos st) then None else m f (RStar r1) st1 k) with
        | Some x => Some x
        | None => k st
        end
    | ROpt r1 =>
        match m f r1 st k with
        | Some x => Some x
        | None => k st
        end
    | RGroup n r1 =>
        m f r1 st (fun st1 =>
          k (MState (pos st1) ((n, (pos st, pos st1)) :: caps st1)))
    | RBound => if at_boundary (pos st) then k st else None
    end
  end.

(** [RegExp.prototype.exec] without the [g] flag: leftmost match. *)
Fixpoint exec_from (fuel : nat) (r : regex) (i : nat) (n : nat) : option mstate :=
  match n with
  | 0 => None
  | S n' =>
      match m fuel r (MState i []) (fun st => Some st) with
      | Some st => Some st
      | None => exec_from fuel r (S i) n'
      end
  end.

Definition exec (r : regex) : option mstate :=
  exec_from ((length s + 1) * (size r + 1)) r 0 (S (length s)).

Fixpoint find_cap (n : nat) (l : list (nat * (nat * nat))) : option (nat * nat) :=
  match l with
  | [] => None
  | (k, v) :: l' => if Nat.eqb k n then Some v else find_cap n l'
  end.

(** The text of capture group [n]. *)
Definition group (st : mstate) (n : nat) : list ascii :=
  match find_cap n (caps st) with
  | Some (b, e) => firstn (e - b) (skipn b s)
  | None => []
  end.

End Match.

End Regex.

(* ------------------------------------------------------------------ *)
(** ** [parseUnitQuantityFromText] *)

Module Units.
Import Chars Regex.

Inductive unit_kind : Type := UCount | UVolumeFloz | UWeightOz.

#[global] Instance unit_kind_eq_dec : EqDecision unit_kind.
Proof. solve_decision. Defined.

(** [{ kind, qty }] *)
Definition quantity : Type := unit_kind * Q.

Fixpoint rseq (l : list regex) : regex :=
  match l with
  | [] => RClass (fun _ => false)
  | [r] => r
  | r :: l' => RSeq r (rseq l')
  end.

Fixpoint ralts (l : list regex) : regex :=
  match l with
  | [] => RClass (fun _ => false)
  | [r] => r
  | r :: l' => RAlt r (ralts l')
  end.

Definition rws : regex := RStar (RClass is_space).                (* \s* *)
Definition rdigits : regex := RPlus (RClass is_digit).            (* \d+ *)
(** [(\d+(?:\.\d+)?)] as capture group [n]. *)
Definition rnum (n : nat) : regex :=
  RGroup n (RSeq rdigits (ROpt (RSeq (RLit ".") rdigits))).
Definition rfloz : regex := rseq [RStr "fl"; rws; RStr "oz"].   (* fl\s*oz *)

(** [/\b(\d+(?:\.\d+)?)\s*x\s*(\d+(?:\.\d+)?)\s*(fl\s*oz|floz|oz|lb|g|kg|ml|l|ct|count|pk|pack)\b/] *)
Definition re_mult : regex :=
  rseq [RBound; rnum 1; rws; RLit "x"; rws; rnum 2; rws;
        RGroup 3 (ralts [rfloz; RStr "floz"; RStr "oz"; RStr "lb"; RStr "g";
                         RStr "kg"; RStr "ml"; RStr "l"; RStr "ct";
                         RStr "count"; RStr "pk"; RStr "pack"]);
        RBound].
(** [/\bpack\s*of\s*(\d+(?:\.\d+)?)\b/] *)
Definition re_packOf : regex :=
  rseq [RBound; RStr "pack"; rws; RStr "of"; rws; rnum 1; RBound].
(** [/\b(\d+(?:\.\d+)?)\s*(ct|count)\b/] *)
Definition re_count : regex :=
  rseq [RBound; rnum 1; rws; RGroup 2 (ralts [RStr "ct"; RStr "count"]); RBound].
(** [/\b(\d+(?:\.\d+)?)\s*(pk|pack)\b/] *)
Definition re_pk : regex :=
  rseq [RBound; rnum 1; rws; RGroup 2 (ralts [RStr "pk"; RStr "pack"]); RBound].
(** [/\b(\d+(?:\.\d+)?)\s*-\s*pack\b/] *)
Definition re_dashPack : regex :=
  rseq [RBound; rnum 1; rws; RLit "-"; rws; RStr "pack"; RBound].
(** [/\b(\d+(?:\.\d+)?)\s*(fl\s*oz|floz)\b/] *)
Definition re_flOz : regex :=
  rseq [RBound; rnum 1; rws; RGroup 2 (ralts [rfloz; RStr "floz"]); RBound].
(** [/\b(\d+(?:\.\d+)?)\s*UNIT\b/] for UNIT in ml, l, oz, lb, g, kg. *)
Definition re_unit (u : string) : regex :=
  rseq [RBound; rnum 1; rws; RStr u; RBound].

(** A decimal literal [d+(.d+)?] as mantissa and number of fraction digits. *)
Fixpoint dec_acc (l : list ascii) (mant : N) (frac : option nat) : N * nat :=
  match l with
  | [] => (mant, match frac with Some k => k | None => 0 end)
  | c :: l' =>
      if is_digit c
      then dec_acc l' (mant * 10 + N.of_nat (code c - 48))%N (option_map S frac)
      else if Ascii.eqb c "." then dec_acc l' mant (Some 0)
      else dec_acc l' mant frac
  end.

Definition dec_of (l : list ascii) : N * nat := dec_acc l 0%N None.

Definition Q_of_dec (d : N * nat) : Q :=
  inject_Z (Z.of_N d.1) / inject_Z (10 ^ Z.of_nat d.2).

(** [Number(text)] on the text of a capture [(\d+(?:\.\d+)?)]. *)
Definition Number_of (l : list ascii) : Q := Q_of_dec (dec_of l).

(** Decimal rendering of a positive decimal, as [`${x}`] prints it in fixed
    notation (trailing fraction zeros dropped). *)
Fixpoint digits_rev (fuel : nat) (n : N) : list ascii :=
  match fuel with
  | 0 => []
  | S f =>
      ascii_of_N (48 + N.modulo n 10) ::
        (if N.eqb (N.div n 10) 0 then [] else digits_rev f (N.div n 10))
  end.

Definition show_N (n : N) : list ascii := rev (digits_rev (S (N.size_nat n)) n).

Fixpoint strip_zeros (fuel : nat) (d : N * nat) : N * nat :=
  match fuel with
  | 0 => d
  | S f =>
      match d.2 with
      | S e => if N.eqb (N.modulo d.1 10) 0 then strip_zeros f (N.div d.1 10, e) else d
      | 0 => d
      end
  end.

Definition render_dec (d : N * nat) : list ascii :=
  let '(mant, e) := strip_zeros d.2 d in
  match e with
  | 0 => show_N mant
  | _ =>
      let ds := show_N mant in
      let ds := repeat "0"%char (S e - List.length ds) ++ ds in
      firstn (List.length ds - e) ds ++ ["."%char] ++ skipn (List.length ds - e) ds
  end.

(** The single-unit patterns, in the order of the source, with the kind and
    the conversion factor each one returns. *)
Definition single_rules : list (regex * unit_kind * Q) :=
  [ (re_packOf, UCount, 1%Q);
    (re_count, UCount, 1%Q);
    (re_pk, UCount, 1%Q);
    (re_dashPack, UCount, 1%Q);
    (re_flOz, UVolumeFloz, 1%Q);
    (re_unit "ml", UVolumeFloz, 338140227 # 10000000000);   (* 0.0338140227 *)
    (re_unit "l", UVolumeFloz, 338140227 # 10000000);       (* 33.8140227 *)
    (re_unit "oz", UWeightOz, 1%Q);
    (re_unit "lb", UWeightOz, 16%Q);
    (re_unit "g", UWeightOz, 352739619 # 10000000000);      (* 0.0352739619 *)
    (re_unit "kg", UWeightOz, 352739619 # 10000000) ].      (* 35.2739619 *)

(** [const m = t.match(re); if (m) { const n = Number(m[1]);
     if (Number.isFinite(n) && n > 0) return { kind, qty: n * factor }; }]
    for each rule in turn. *)
Fixpoint try_rules (t : list ascii) (rules : list (regex * unit_kind * Q))
  : option quantity :=
  match rules with
  | [] => None
  | (r, k, f) :: rest =>
      match exec t r with
      | Some st =>
          let n := Number_of (group t st 1) in
          if Qltb 0%Q n then Some (k, (n * f)%Q) else try_rules t rest
      | None => try_rules t rest
      end
  end.

(** [parseUnitQuantityFromText]; [depth] bounds the recursive call of the
    multi-pack branch on [`${total} ${unit}`] (a string without [x], so one
    level suffices: the entry point uses depth 2). *)
Fixpoint parse_depth (depth : nat) (text : list ascii) : option quantity :=
  let s := trim (collapse_ws (lower text)) in
  match s with
  | [] => None
  | _ =>
    let t := replace_times s in
    let mult :=
      match depth with
      | 0 => None
      | S d =>
          match exec t re_mult with
          | Some st =>
              let a := dec_of (group t st 1) in
              let b := dec_of (group t st 2) in
              let unit := filter (fun c => negb (is_space c)) (group t st 3) in
              if Qltb 0%Q (Q_of_dec a) && Qltb 0%Q (Q_of_dec b) then
                let total := ((a.1 * b.1)%N, (a.2 + b.2)%nat) in
                parse_depth d (render_dec total ++ [" "%char] ++ unit)
              else None
          | None => None
          end
      end in
    match mult with
    | Some q => Some q
    | None => try_rules t single_rules
    end
  end.

Definition parseUnitQuantityFromText (text : string) : option quantity :=
  parse_depth 2 (list_ascii_of_string text).

End Units.

(* ------------------------------------------------------------------ *)
(** ** JavaScript values *)

Module Js.
Import Chars.
Local Open Scope Q_scope.

(** A JS number: a finite value, NaN, or an infinity. *)
Inductive jsnum : Type := JFin (q : Q) | JNaN | JInf (positive : bool).

(** The JSON-like values the code reads from records. *)
Inductive jsval : Type :=
| JUndefined | JNull | JBool (b : bool) | JNum (n : jsnum) | JStr (s : string).

Definition is_finite (n : jsnum) : bool :=
  match n with JFin _ => true | _ => false end.

(** Truthiness of [x] in [x || d]. *)
Definition truthy (v : jsval) : bool :=
  match v with
  | JUndefined | JNull => false
  | JBool b => b
  | JNum (JFin q) => negb (Qeq_bool q 0)
  | JNum JNaN => false
  | JNum (JInf _) => true
  | JStr s => negb (String.eqb s "")
  end.

Fixpoint span_digits (l : list ascii) : list ascii * list ascii :=
  match l with
  | c :: l' => if is_digit c then let '(a, b) := span_digits l' in (c :: a, b) else ([], l)
  | [] => ([], [])
  end.

(** The unsigned decimal literals [d+], [d+.d*], [.d+] of StringToNumber. *)
Definition unsigned_decimal (l : list ascii) : option Q :=
  let '(ip, rest) := span_digits l in
  match rest with
  | [] => match ip with [] => None | _ => Some (Units.Number_of ip) end
  | c :: fp =>
      if Ascii.eqb c "." && forallb is_digit fp
         && negb (Nat.eqb (List.length ip + List.length fp) 0)
      then Some (Units.Number_of (ip ++ "."%char :: fp))
      else None
  end.

(** [Number(s)] for a string: surrounding white space is ignored, the empty
    string is [0], an optionally signed decimal literal or [Infinity] is read,
    anything else is NaN.  (Hexadecimal and exponent literals are not
    modelled; they also give NaN here.) *)
Definition string_to_number (s : string) : jsnum :=
  let t := trim (list_ascii_of_string s) in
  let '(sign, body) :=
    match t with
    | c :: rest => if Ascii.eqb c "-" then (false, rest)
                   else if Ascii.eqb c "+" then (true, rest) else (true, t)
    | [] => (true, [])
    end in
  match t with
  | [] => JFin 0
  | _ =>
    if String.eqb (string_of_list_ascii body) "Infinity" then JInf sign
    else match unsigned_decimal body with
         | Some q => JFin (if sign then q else - q)
         | None => JNaN
         end
  end.

(** [Number(v)] *)
Definition to_number (v : jsval) : jsnum :=
  match v with
  | JUndefined => JNaN
  | JNull => JFin 0
  | JBool b => JFin (if b then 1 else 0)
  | JNum n => n
  | JStr s => string_to_number s
  end.

End Js.

(* ------------------------------------------------------------------ *)
(** ** [bestComparableOffer] and [chooseWinnerForIngredient] *)

Module Offers.
Import Js Units.
Local Open Scope Q_scope.

(** The fields of [p.raw] that the offer code reads. *)
Record raw_fields : Type := RawFields {
  raw_size : jsval; raw_sizeString : jsval; raw_packageSize : jsval;
  raw_packSize : jsval; raw_name : jsval }.

(** A normalised product as seen by [bestComparableOffer]: [title] and
    [size] are [p?.title || ""] and [p?.size || ""]. *)
Record product : Type := Product {
  title : string;
  price : jsval;
  size : string;
  raw : option raw_fields }.

Record offer : Type := Offer {
  o_product : product;
  o_price : Q;
  o_unitKind : option unit_kind;
  o_unitQty : option Q;
  o_unitPrice : option Q }.

(** [typeof p?.price === "number" ? p.price : Number(p?.price || 0)] *)
Definition price_number (p : product) : jsnum :=
  match price p with
  | JNum n => n
  | v => to_number (if truthy v then v else JNum (JFin 0))
  end.

Definition str_or_empty (v : jsval) : string :=
  match v with JStr s => s | _ => "" end.

(** The texts tried by the unit parser: size, then the packaging fields of
    [raw], then the title. *)
Definition candidates (p : product) : list string :=
  (if String.eqb (size p) "" then [] else [size p]) ++
  match raw p with
  | Some r =>
      filter (fun s => negb (String.eqb s ""))
        (map str_or_empty [raw_size r; raw_sizeString r; raw_packageSize r;
                           raw_packSize r; raw_name r])
  | None => []
  end ++ [title p].

Fixpoint first_parse (l : list string) : option quantity :=
  match l with
  | [] => None
  | c :: l' =>
      match parseUnitQuantityFromText c with
      | Some q => Some q
      | None => first_parse l'
      end
  end.

(** The offer built for one product inside the loop. *)
Definition make_offer (p : product) : offer :=
  let pr := price_number p in
  let parsed := first_parse (candidates p) in
  let unit := match parsed with
              | Some (k, q) => if Qltb 0 q then Some (k, q) else None
              | None => None
              end in
  {| o_product := p;
     o_price := match pr with JFin q => q | _ => 0 end;
     o_unitKind := option_map fst unit;
     o_unitQty := option_map snd unit;
     o_unitPrice := match unit, pr with
                    | Some (_, q), JFin x => Some (x / q)
                    | _, _ => None
                    end |}.

(** One iteration of the running-best loop, for [best] already set. *)
Definition better (best o : offer) : offer :=
  match o_unitPrice o, o_unitPrice best with
  | Some up, Some bp =>
      if decide (o_unitKind o = o_unitKind best)
      then (if Qltb up bp then o else best)
      else (if Qltb (o_price o) (o_price best) then o else best)
  | _, _ => if Qltb (o_price o) (o_price best) then o else best
  end.

Definition step (best : option offer) (p : product) : option offer :=
  let o := make_offer p in
  match best with
  | None => Some o
  | Some b => Some (better b o)
  end.

Definition bestComparableOffer (products : list product) : option offer :=
  fold_left step products None.

Inductive winner : Type := WKroger | WWalmart | WNone.
Inductive reason : Type := only_kroger | only_walmart | none | unit_price | price_fallback.

Record decision : Type := Decision {
  d_winner : winner; d_krogerBest : option offer;
  d_walmartBest : option offer; d_reason : reason }.

Definition chooseWinnerForIngredient (kArr wArr : list product) : decision :=
  let krogerBest := bestComparableOffer kArr in
  let walmartBest := bestComparableOffer wArr in
  match krogerBest, walmartBest with
  | Some kb, None => Decision WKroger krogerBest walmartBest only_kroger
  | None, Some wb => Decision WWalmart krogerBest walmartBest only_walmart
  | None, None => Decision WNone None None none
  | Some kb, Some wb =>
      match o_unitPrice kb, o_unitPrice wb with
      | Some ku, Some wu =>
          if decide (o_unitKind kb = o_unitKind wb) then
            (if Qle_bool ku wu then Decision WKroger krogerBest walmartBest unit_price
             else Decision WWalmart krogerBest walmartBest unit_price)
          else
            (if Qle_bool (o_price kb) (o_price wb)
             then Decision WKroger krogerBest walmartBest price_fallback
             else Decision WWalmart krogerBest walmartBest price_fallback)
      | _, _ =>
          if Qle_bool (o_price kb) (o_price wb)
          then Decision WKroger krogerBest walmartBest price_fallback
          else Decision WWalmart krogerBest walmartBest price_fallback
      end
  end.

(** The four-branch order of the specification (section 4.4), written from
    its words: (a) only one retailer has an offer, (b) neither has one,
    (c) both have a unit price of the same unit kind, (d) absolute price;
    ties go to the first retailer checked, Kroger. *)
Definition spec_winner (kb wb : option offer) : winner * reason :=
  match kb, wb with
  | Some _, None => (WKroger, only_kroger)
  | None, Some _ => (WWalmart, only_walmart)
  | None, None => (WNone, none)
  | Some k, Some w =>
      let same_kind_unit :=
        match o_unitPrice k, o_unitPrice w with
        | Some _, Some _ => bool_decide (o_unitKind k = o_unitKind w)
        | _, _ => false
        end in
      if same_kind_unit then
        match o_unitPrice k, o_unitPrice w with
        | Some ku, Some wu =>
            if Qltb wu ku then (WWalmart, unit_price) else (WKroger, unit_price)
        | _, _ => (WKroger, unit_price)
        end
      else if Qltb (o_price w) (o_price k) then (WWalmart, price_fallback)
      else (WKroger, price_fallback)
  end.

End Offers.

(* ------------------------------------------------------------------ *)
(** ** [runKrogerSearchPipeline] (after a dish-cache miss) *)

Module Pipeline.
Import Chars Js.

(** External calls made by a run, in order. *)
Inductive event : Type :=
| ECacheGet (family : string)        (* redis.get on the llm1 / llm2 key *)
| ECacheSet (family : string)        (* redis.set on the llm1 / llm2 / dish key *)
| EOracle1                           (* callGPT5JSON for the ingredients *)
| EOracle2                           (* callGPT5JSON for the index picks *)
| EUserLookup                        (* User.findById *)
| ELocationLookup                    (* Kroger.getLocationIdByZip *)
| ECatalogSearch (term : string)     (* Kroger.searchProductsByTerm *)
| ECartAdd (upc : string).           (* PUT /cart/add *)

(** A computation that records the calls it makes. *)
Definition W (A : Type) : Type := list event -> A * list event.

#[global] Instance W_ret : MRet W := fun A a tr => (a, tr).
#[global] Instance W_bind : MBind W :=
  fun A B f m tr => let '(a, tr') := m tr in f a tr'.

Definition emit (ev : event) : W unit := fun tr => (tt, tr ++ [ev]).

Fixpoint W_fold {A B : Type} (f : A -> B -> W A) (acc : A) (l : list B) : W A :=
  match l with
  | [] => mret acc
  | x :: l' => acc' ← f acc x; W_fold f acc' l'
  end.

(** A Kroger catalog record (the fields the pipeline reads). *)
Record kproduct : Type := KProduct {
  productId : string; description : string; upc : string }.

(** [normalizeKroger(p, locationId)] (image, price and category omitted). *)
Record knorm : Type := KNorm {
  n_id : string; n_title : string; n_upc : string;
  n_locationId : option string; n_raw : kproduct }.

Definition normalizeKroger (p : kproduct) (loc : option string) : knorm :=
  {| n_id := productId p; n_title := description p; n_upc := upc p;
     n_locationId := loc; n_raw := p |}.

(** One entry of [final_picks]: [{ ingredient, indices }]; [indices] is the
    array the oracle returned ([[]] when it is not an array). *)
Record pick : Type := Pick { pk_ingredient : string; pk_indices : list jsval }.

(** A warning: the bare code of an early return, or [{ ingredient, error }]. *)
Inductive warning : Type :=
| WCode (code : string)
| WIng (ingredient : string) (error : string).

Record payload : Type := Payload {
  products : list knorm;
  warnings : list warning;
  dishName : option string;
  ingredients : list string;
  matchedInKroger : list string;
  krogerMatchedByIngredient : gmap string (list knorm) }.

(** What the collaborators answer during one run.  [None] from an oracle
    is an unparsable response or one without the expected array; [None]
    from the catalog search is a thrown error. *)
Record env : Type := Env {
  passCount : nat;
  llm1_cache : option (list string);
  llm1 : option (list string);
  has_user : bool;
  user_locationId : option string;
  zip_locationId : option string;
  search : string -> option (list kproduct);
  llm2_cache : option (list pick);
  llm2 : option (list pick) }.

(** Ingredient extraction: [dishDetected = arr.length > 1;
    dishName = dishDetected ? arr[0] : null;
    ingredients = dishDetected ? arr.slice(1) : arr]. *)
Definition interpret (arr : list string) : option string * list string :=
  if Nat.ltb 1 (List.length arr) then (head arr, tail arr) else (None, arr).

Definition extract (e : env) : W (option string * list string) :=
  _ ← emit (ECacheGet "llm1");
  match llm1_cache e with
  | Some arr => mret (interpret arr)
  | None =>
      _ ← emit EOracle1;
      let arr := default [] (llm1 e) in
      _ ← emit (ECacheSet "llm1");
      mret (interpret arr)
  end.

Definition early_no_ingredients (dish : option string) : payload :=
  {| products := []; warnings := [WCode "no_ingredients"]; dishName := dish;
     ingredients := []; matchedInKroger := []; krogerMatchedByIngredient := ∅ |}.

(** Accumulators of the fetch loop: [titlesByIng], [fullByIng], [warnings]. *)
Record fetch_acc : Type := FetchAcc {
  titlesByIng : gmap string (list string);
  fullByIng : gmap string (list kproduct);
  f_warnings : list warning }.

Definition fetch_one (e : env) (acc : fetch_acc) (ing : string) : W fetch_acc :=
  _ ← emit (ECatalogSearch ing);
  match search e ing with
  | Some list =>
      let titles := take (passCount e) (map description list) in
      mret {| titlesByIng := <[ing := titles]> (titlesByIng acc);
              fullByIng := <[ing := list]> (fullByIng acc);
              f_warnings := f_warnings acc ++
                (match titles with [] => [WIng ing "no_candidates"] | _ => [] end) |}
  | None =>
      mret {| titlesByIng := <[ing := []]> (titlesByIng acc);
              fullByIng := <[ing := []]> (fullByIng acc);
              f_warnings := f_warnings acc ++ [WIng ing "product_search_failed"] |}
  end.

(** [Number.isInteger] *)
Definition as_integer (v : jsval) : option Z :=
  match v with
  | JNum (JFin q) => if Pos.eqb (Qden (Qred q)) 1 then Some (Qnum (Qred q)) else None
  | _ => None
  end.

Fixpoint dedup_Z (seen : list Z) (l : list Z) : list Z :=
  match l with
  | [] => []
  | x :: l' => if bool_decide (x ∈ seen) then dedup_Z seen l'
               else x :: dedup_Z (x :: seen) l'
  end.

(** [Array.from(new Set(indices.filter(Number.isInteger)))] *)
Definition clean_indices (indices : list jsval) : list Z :=
  dedup_Z [] (omap as_integer indices).

Fixpoint find_desc (t : string) (pool : list kproduct) : option kproduct :=
  match pool with
  | [] => None
  | p :: pool' => if String.eqb (description p) t then Some p else find_desc t pool'
  end.

(** [const title = titles[i];
     const hit = pool.find((p) => p.description === title) || pool[i];] *)
Definition kroger_resolve (pool : list kproduct) (titles : list string) (i : Z)
  : option kproduct :=
  if Z.ltb i 0 || Z.leb (Z.of_nat (List.length titles)) i then None
  else match titles !! Z.to_nat i with
       | Some title =>
           match find_desc title pool with
           | Some p => Some p
           | None => pool !! Z.to_nat i
           end
       | None => None
       end.

(** The products contributed by one [{ ingredient, indices }] entry. *)
Definition map_entry (pool : list kproduct) (titles : list string)
    (loc : option string) (indices : list jsval) : list knorm :=
  map (fun p => normalizeKroger p loc)
      (omap (kroger_resolve pool titles) (clean_indices indices)).

Record map_acc : Type := MapAcc {
  m_products : list knorm;
  m_matched : list string;
  m_byIng : gmap string (list knorm) }.

Definition map_step (fa : fetch_acc) (loc : option string) (acc : map_acc) (pk : pick)
  : map_acc :=
  let ing := pk_ingredient pk in
  let pool := default [] (fullByIng fa !! ing) in
  let titles := default [] (titlesByIng fa !! ing) in
  match clean_indices (pk_indices pk) with
  | [] => acc
  | _ =>
      let ps := map_entry pool titles loc (pk_indices pk) in
      {| m_products := m_products acc ++ ps;
         m_matched := match ps with
                      | [] => m_matched acc
                      | _ => if bool_decide (ing ∈ m_matched acc) then m_matched acc
                             else m_matched acc ++ [ing]
                      end;
         m_byIng := match ps with
                    | [] => m_byIng acc
                    | _ => <[ing := default [] (m_byIng acc !! ing) ++ ps]> (m_byIng acc)
                    end |}
  end.

Definition runKrogerSearchPipeline (e : env) : W payload :=
  '(dish, ings) ← extract e;
  match ings with
  | [] => _ ← emit (ECacheSet "dish"); mret (early_no_ingredients dish)
  | _ =>
    _ ← (if has_user e then emit EUserLookup else mret tt);
    loc ← (match user_locationId e with
           | Some l => mret (Some l)
           | None => _ ← emit ELocationLookup; mret (zip_locationId e)
           end);
    fa ← W_fold (fetch_one e) (FetchAcc ∅ ∅ []) ings;
    let ingList := filter (fun i => negb (bool_decide (default [] (titlesByIng fa !! i) = [])))
                          ings in
    match ingList with
    | [] =>
        _ ← emit (ECacheSet "dish");
        mret {| products := [];
                warnings := match f_warnings fa with [] => [WCode "no_candidates"] | w => w end;
                dishName := dish; ingredients := ings; matchedInKroger := [];
                krogerMatchedByIngredient := ∅ |}
    | _ =>
        _ ← emit (ECacheGet "llm2");
        entries ← (match llm2_cache e with
                   | Some picks => mret picks
                   | None =>
                       _ ← emit EOracle2;
                       let picks := default [] (llm2 e) in
                       _ ← emit (ECacheSet "llm2");
                       mret picks
                   end);
        let ma := foldl (map_step fa loc) (MapAcc [] [] ∅) entries in
        _ ← emit (ECacheSet "dish");
        mret {| products := m_products ma;
                warnings := f_warnings fa;
                dishName := match dish with Some "" => None | d => d end;
                ingredients := ings;
                matchedInKroger := m_matched ma;
                krogerMatchedByIngredient := m_byIng ma |}
    end
  end.

End Pipeline.

(* ------------------------------------------------------------------ *)
(** ** [runWalmartMatchByIndexDetailed] and the Walmart term selection *)

Module Walmart.
Import Chars Js Pipeline.

(** A Walmart catalog item; [w_name] is [it?.name || ""]. *)
Record witem : Type := WItem { w_itemId : string; w_name : string }.

(** [normTitle]: lower-case, collapse white space, drop [[^\w\s]], trim.
    (NFKD is the identity on ASCII; the bytes of [®], [™] and of any other
    non-ASCII character are removed by the [[^\w\s]] step.) *)
Definition normTitle (s : string) : list ascii :=
  trim (filter (fun c => is_word c || is_space c)
               (collapse_ws (lower (list_ascii_of_string s)))).

Fixpoint find_name (t : string) (pool : list witem) : option witem :=
  match pool with
  | [] => None
  | it :: pool' => if String.eqb (w_name it) t then Some it else find_name t pool'
  end.

(** [new Map(pool.map((it) => [normTitle(it?.name || ""), it])).get(n)]:
    a later item with the same key overwrites an earlier one. *)
Definition byNorm_get (pool : list witem) (n : list ascii) : option witem :=
  foldl (fun acc it => if bool_decide (normTitle (w_name it) = n) then Some it else acc)
        None pool.

(** [pool.find((it) => (it?.name || "") === t) || byNorm.get(normTitle(t))] *)
Definition walmart_resolve (pool : list witem) (t : string) : option witem :=
  match find_name t pool with
  | Some it => Some it
  | None => byNorm_get pool (normTitle t)
  end.

(** [items.map((it) => it?.name || "").filter(Boolean).slice(0, passCount)] *)
Definition walmart_titles (passCount : nat) (items : list witem) : list string :=
  take passCount (filter (fun s => negb (String.eqb s "")) (map w_name items)).

(** The items matched for one [{ ingredient, indices }] entry. *)
Definition walmart_map_entry (pool : list witem) (titles : list string)
    (indices : list jsval) : list witem :=
  let chosen := omap (fun i => if Z.ltb i 0 then None else titles !! Z.to_nat i)
                     (clean_indices indices) in
  omap (walmart_resolve pool) chosen.

Fixpoint dedup_str (seen : list string) (l : list string) : list string :=
  match l with
  | [] => []
  | x :: l' => if bool_decide (x ∈ seen) then dedup_str seen l'
               else x :: dedup_str (x :: seen) l'
  end.

(** [Array.from(new Set((terms || []).filter(Boolean)))]: the term list the
    Walmart stage works on. *)
Definition walmart_ingList (terms : list string) : list string :=
  dedup_str [] (filter (fun s => negb (String.eqb s "")) terms).

Definition UNMATCH_CODES : list string :=
  ["no_candidates"; "product_search_failed"; "no_confident_title";
   "no_valid_indices"; "no_confident_match"; "title_not_in_pool"].

(** [extractUnmatchedTerms] *)
Definition extractUnmatchedTerms (ws : list warning) : list string :=
  let terms :=
    omap (fun w =>
            match w with
            | WIng ing err =>
                let t := trim_str ing in
                if String.eqb t "" then None
                else if bool_decide (err ∈ UNMATCH_CODES) then Some t else None
            | WCode _ => None
            end) ws in
  take 6 (dedup_str [] (map lower_str terms)).

(** The terms [krogerSearch] forwards to [runWalmartMatchByIndexDetailed]. *)
Definition walmartTerms (budget : bool) (k : payload) : list string :=
  let matched := matchedInKroger k in
  let unmatchedIngredients :=
    filter (fun ing => negb (bool_decide (ing ∈ matched))) (ingredients k) in
  let fromWarnings := extractUnmatchedTerms (warnings k) in
  if budget then ingredients k
  else match fromWarnings with
       | [] => take 6 unmatchedIngredients
       | _ => fromWarnings
       end.

End Walmart.

(* ------------------------------------------------------------------ *)
(** ** Cart synchronisation: [addKrogerItemsToCart] and its helpers *)

Module Cart.
Import Chars Js.
Local Open Scope Z_scope.

(** [user.kroger]: the OAuth credential and the cart snapshot. *)
Record kcred : Type := KCred {
  accessToken : option string;
  expiresAt : option Z;                      (* milliseconds *)
  refreshToken : option string;
  cartSnapshot : gmap string jsnum }.

Inductive cevent : Type :=
| CFindUser                                  (* User.findById *)
| CSave                                      (* user.save() *)
| CTokenRequest                              (* POST /connect/oauth2/token *)
| CPut (bearer upc : string) (status : Z)    (* PUT /cart/add and its status *)
| CSleep.                                    (* await sleep(220) *)

(** The persisted user record of the requesting user ([None]: not found),
    the clock, and the calls made so far. *)
Record world : Type := World {
  db : option kcred;
  now : Z;
  log : list cevent }.

(** The remote services: the token endpoint ([None]: the request throws;
    otherwise [access_token], [refresh_token], [expires_in] in seconds) and
    the status the cart endpoint answers, given the calls made before. *)
Record remote : Type := Remote {
  token_endpoint : string -> option (string * option string * Z);
  cart_status : list cevent -> string -> string -> Z }.

Definition St (A : Type) : Type := world -> A * world.

#[global] Instance St_ret : MRet St := fun A a w => (a, w).
#[global] Instance St_bind : MBind St :=
  fun A B f m w => let '(a, w') := m w in f a w'.

Definition record (ev : cevent) : St unit :=
  fun w => (tt, {| db := db w; now := now w; log := log w ++ [ev] |}).

Definition save (u : kcred) : St unit :=
  fun w => (tt, {| db := Some u; now := now w; log := log w ++ [CSave] |}).

Definition find_user : St (option kcred) :=
  fun w => (db w, {| db := db w; now := now w; log := log w ++ [CFindUser] |}).

Definition get_now : St Z := fun w => (now w, w).

(** [await sleep(220)] *)
Definition sleep220 : St unit :=
  fun w => (tt, {| db := db w; now := now w + 220; log := log w ++ [CSleep] |}).

(** [isTokenValid]: an access token whose expiry is more than 60 s away. *)
Definition isTokenValid (k : kcred) (t : Z) : bool :=
  match accessToken k, expiresAt k with
  | Some a, Some exp => negb (String.eqb a "") && Z.ltb 60000 (exp - t)
  | _, _ => false
  end.

(** [refreshWithRefreshToken] followed by the [catch] of [getValidUserToken]. *)
Definition refreshWithRefreshToken (R : remote) (u : kcred) : St (option string * kcred) :=
  match refreshToken u with
  | None => mret (None, u)
  | Some rt =>
      _ ← record CTokenRequest;
      match token_endpoint R rt with
      | None => mret (None, u)
      | Some (acc, new_rt, expires_in) =>
          t ← get_now;
          let u' := {| accessToken := Some acc;
                       refreshToken := match new_rt with Some r => Some r | None => Some rt end;
                       expiresAt := Some (t + expires_in * 1000);
                       cartSnapshot := cartSnapshot u |} in
          _ ← save u';
          mret (Some acc, u')
      end
  end.

(** [getValidUserToken] *)
Definition getValidUserToken (R : remote) (u : kcred) : St (option string * kcred) :=
  t ← get_now;
  if isTokenValid u t then mret (accessToken u, u)
  else refreshWithRefreshToken R u.

(** An element of [itemsToAdd]: [upc] ([None] when absent) and [quantity]. *)
Record cart_input : Type := CartInput { ci_upc : option string; ci_quantity : jsval }.

Record item : Type := Item { it_upc : string; it_quantity : jsnum }.

(** [Number(x?.quantity || 1) || 1] *)
Definition quantity_of (v : jsval) : jsnum :=
  let n := to_number (if truthy v then v else JNum (JFin 1)) in
  if truthy (JNum n) then n else JFin 1.

(** [.map(...).filter((x) => x.upc)] *)
Definition normalize_items (l : list cart_input) : list item :=
  filter (fun it => negb (String.eqb (it_upc it) ""))
    (map (fun x => {| it_upc := trim_str (default "" (ci_upc x));
                      it_quantity := quantity_of (ci_quantity x) |}) l).

Fixpoint dedup_upc (seen : list string) (l : list item) : list item :=
  match l with
  | [] => []
  | it :: l' => if bool_decide (it_upc it ∈ seen) then dedup_upc seen l'
                else it :: dedup_upc (it_upc it :: seen) l'
  end.

(** [items] followed by the [seen] loop that builds [uniq]. *)
Definition prepare (l : list cart_input) : list item := dedup_upc [] (normalize_items l).

Inductive cart_result : Type :=
| CartError (error : string)                       (* { ok: false, error } *)
| CartNeedAuth (pending : list item)                (* { ok: false, needKrogerAuth: true, loginUrl } *)
| CartOk (addedCount skippedCount : nat) (items : list item).

(** The variables of the item loop: [token], the user document [u],
    [addedCount] and [addedItems]. *)
Record loop_state : Type := LoopState {
  l_token : string; l_user : kcred; l_added : nat; l_items : list item }.

Definition put (R : remote) (bearer : string) (it : item) : St Z :=
  fun w =>
    let s := cart_status R (log w) bearer (it_upc it) in
    (s, {| db := db w; now := now w; log := log w ++ [CPut bearer (it_upc it) s] |}).

Definition is_2xx (s : Z) : bool := Z.leb 200 s && Z.ltb s 300.

(** One iteration of [for (let i = 0; i < uniq.length; i++)]. *)
Definition process_item (R : remote) (ls : loop_state) (it : item) : St loop_state :=
  resp ← put R (l_token ls) it;
  '(token, u, resp) ←
    (if Z.eqb resp 401 || Z.eqb resp 403 then
       '(refreshed, u') ← getValidUserToken R (l_user ls);
       match refreshed with
       | Some r =>
           if String.eqb r "" || String.eqb r (l_token ls) then mret (l_token ls, u', resp)
           else resp' ← put R r it; mret (r, u', resp')
       | None => mret (l_token ls, u', resp)
       end
     else mret (l_token ls, l_user ls, resp));
  let ls' :=
    if is_2xx resp then
      {| l_token := token;
         l_user := {| accessToken := accessToken u; expiresAt := expiresAt u;
                      refreshToken := refreshToken u;
                      cartSnapshot := <[it_upc it := it_quantity it]> (cartSnapshot u) |};
         l_added := S (l_added ls);
         l_items := l_items ls ++ [it] |}
    else {| l_token := token; l_user := u; l_added := l_added ls; l_items := l_items ls |} in
  _ ← sleep220;
  mret ls'.

Fixpoint St_fold {A B : Type} (f : A -> B -> St A) (acc : A) (l : list B) : St A :=
  match l with
  | [] => mret acc
  | x :: l' => acc' ← f acc x; St_fold f acc' l'
  end.

(** [addKrogerItemsToCart] for the requesting user. *)
Definition addKrogerItemsToCart (R : remote) (itemsToAdd : list cart_input)
  : St cart_result :=
  uo ← find_user;
  match uo with
  | None => mret (CartError "user_not_found")
  | Some u =>
    let uniq := prepare itemsToAdd in
    match uniq with
    | [] => mret (CartOk 0 0 [])
    | _ =>
      '(tok, u) ← getValidUserToken R u;
      match tok with
      | None | Some "" => mret (CartNeedAuth uniq)
      | Some token =>
          ls ← St_fold (process_item R) (LoopState token u 0 []) uniq;
          _ ← save (l_user ls);
          mret (CartOk (l_added ls) 0 (l_items ls))
      end
    end
  end.

(** [clearCartSnapshotForUser] for a logged-in user. *)
Definition clearCartSnapshotForUser : St unit :=
  uo ← find_user;
  match uo with
  | None => mret tt
  | Some u =>
      save {| accessToken := accessToken u; expiresAt := expiresAt u;
              refreshToken := refreshToken u; cartSnapshot := ∅ |}
  end.

(** The cart part of [krogerSearch] with [autoAdd]: the snapshot is cleared,
    the search runs (it does not write the user record), then the plan built
    from its Kroger products is added. *)
Definition autoAddRun (R : remote) (plan : list cart_input) : St cart_result :=
  _ ← clearCartSnapshotForUser;
  addKrogerItemsToCart R plan.

End Cart.

Module Text.
Import Chars.
Local Open Scope Q_scope.

(** [.replace(/[®™]/g, "")] on UTF-8 text: U+00AE is C2 AE, U+2122 is E2 84 A2. *)
Fixpoint strip_marks (s : list ascii) : list ascii :=
  match s with
  | [] => []
  | c1 :: t =>
      match t with
      | [] => [c1]
      | c2 :: t2 =>
          if Nat.eqb (code c1) 194 && Nat.eqb (code c2) 174 then strip_marks t2
          else if Nat.eqb (code c1) 226 && Nat.eqb (code c2) 132 then
            match t2 with
            | c3 :: t3 => if Nat.eqb (code c3) 162 then strip_marks t3 else c1 :: strip_marks t
            | [] => c1 :: strip_marks t
            end
          else c1 :: strip_marks t
      end
  end.

(** [.replace(/[^a-z0-9\s]/g, " ")] *)
Definition keep_alnum (c : ascii) : ascii :=
  if is_lower c || is_digit c || is_space c then c else " "%char.

(** [normText]: lower-case, (NFKD,) drop [®™], every character other than
    [a-z0-9] and white space becomes a space, collapse white space, trim. *)
Definition normText_l (s : list ascii) : list ascii :=
  trim (collapse_ws (map keep_alnum (strip_marks (lower s)))).


(** [s.split(" ")] *)
Fixpoint split_sp (s : list ascii) : list (list ascii) :=
  match s with
  | [] => [[]]
  | c :: s' =>
      let r := split_sp s' in
      if Ascii.eqb c " " then [] :: r
      else match r with
           | w :: r' => (c :: w) :: r'
           | [] => [[c]]
           end
  end.

Fixpoint dedup_l (seen : list (list ascii)) (l : list (list ascii)) : list (list ascii) :=
  match l with
  | [] => []
  | x :: l' => if bool_decide (x ∈ seen) then dedup_l seen l' else x :: dedup_l (x :: seen) l'
  end.

(** [tokenSet]: [new Set(normText(s).split(" ").filter(Boolean))], as the
    list of its elements in insertion order. *)
Definition tokenSet (s : string) : list (list ascii) :=
  dedup_l [] (filter (fun w => negb (bool_decide (w = []))) (split_sp (normText_l (list_ascii_of_string s)))).

(** [tokenOverlap] *)
Definition tokenOverlap (a b : string) : Q :=
  let A := tokenSet a in
  let B := tokenSet b in
  if Nat.eqb (List.length A) 0 || Nat.eqb (List.length B) 0 then 0
  else
    let inter := List.length (List.filter (fun x => bool_decide (x ∈ B)) A) in
    inject_Z (Z.of_nat inter) / inject_Z (Z.of_nat (Nat.max 1 (Nat.min (List.length A) (List.length B)))).

Fixpoint is_prefix (p s : list ascii) : bool :=
  match p, s with
  | [], _ => true
  | c :: p', d :: s' => Ascii.eqb c d && is_prefix p' s'
  | _ :: _, [] => false
  end.

(** [s.includes(p)] *)
Fixpoint includes (s p : list ascii) : bool :=
  is_prefix p s || match s with [] => false | _ :: s' => includes s' p end.

(** [looksLikeCovered(fridgeItems, ingredient, productTitle)] *)
Fixpoint looksLikeCovered (fridgeItems : list string) (ingredient productTitle : string) : bool :=
  match fridgeItems with
  | [] => false
  | item :: rest =>
      let ing := normText_l (list_ascii_of_string ingredient) in
      let title := normText_l (list_ascii_of_string productTitle) in
      let it := normText_l (list_ascii_of_string item) in
      if bool_decide (it = []) then looksLikeCovered rest ingredient productTitle
      else if includes ing it || includes it ing then true
      else if includes title it then true
      else if Qle_bool (66 # 100) (tokenOverlap ingredient item)
              || Qle_bool (66 # 100) (tokenOverlap productTitle item) then true
      else looksLikeCovered rest ingredient productTitle
  end.



End Text.

Module Images.
Local Open Scope Z_scope.

(** One entry of [image.sizes]: [{ size, url }]; a missing or empty [size]
    or [url] is [""] (the code reads them through [|| ""]). *)
Record isize : Type := ISize { sz_size : string; sz_url : string }.

(** One entry of [p.images]: [{ perspective, sizes }]; missing [sizes] is [[]]. *)
Record image : Type := Image { perspective : string; img_sizes : list isize }.

Definition prefOrder : list string := ["xlarge"; "large"; "medium"; "small"; "thumbnail"]%string.

(** [Array.prototype.indexOf]: the first index, or [-1]. *)
Fixpoint indexOf (l : list string) (x : string) : Z :=
  match l with
  | [] => -1
  | y :: l' => if String.eqb y x then 0 else
               let i := indexOf l' x in if i <? 0 then -1 else i + 1
  end.

Definition rank (s : isize) : Z := indexOf prefOrder (sz_size s).

(** [Array.prototype.sort] is stable (ES2019); with the comparator
    [(a, b) => rank a - rank b] it orders by rank and keeps the input order
    of equal ranks, which this insertion sort does. *)
Fixpoint ins (x : isize) (l : list isize) : list isize :=
  match l with
  | [] => [x]
  | y :: l' => if rank x <=? rank y then x :: l else y :: ins x l'
  end.

Fixpoint isort (l : list isize) : list isize :=
  match l with
  | [] => []
  | x :: l' => ins x (isort l')
  end.

(** [sizes]: the sizes of the first image whose perspective is ["front"],
    then those of the other images in order.  [imgs.filter((i) => i !== front)]
    compares references; the images of a parsed JSON response are distinct
    objects, so it removes exactly the front entry. *)
Definition all_sizes (imgs : list image) : list isize :=
  match list_find (fun i => perspective i = "front"%string) imgs with
  | Some (k, front) => img_sizes front ++ concat (map img_sizes (delete k imgs))
  | None => concat (map img_sizes imgs)
  end.

(** [pickBestImage(p)] with [imgs] the array [p.images] ([[]] when it is not one). *)
Definition pickBestImage (imgs : list image) : string :=
  let sizes := all_sizes imgs in
  match sizes with
  | [] => ""%string
  | _ => match isort sizes with
         | s :: _ => sz_url s
         | [] => ""%string
         end
  end.

End Images.

Module Payload.
Import Chars Offers.
Local Open Scope Z_scope.

(** A plain JS object: its own string-keyed properties in insertion order. *)
Definition jsobj (A : Type) : Type := list (string * A).

Fixpoint set_own {A} (o : jsobj A) (k : string) (v : A) : jsobj A :=
  match o with
  | [] => [(k, v)]
  | (k', v') :: o' => if String.eqb k k' then (k, v) :: o' else (k', v') :: set_own o' k v
  end.

(** [o[k] = v] for an array [v]: an existing key keeps its place, a new one
    goes last; [o["__proto__"] = v] replaces the prototype and adds no own key. *)
Definition obj_set {A} (o : jsobj A) (k : string) (v : A) : jsobj A :=
  if String.eqb k "__proto__" then o else set_own o k v.

Definition digits_val (l : list ascii) : Z :=
  fold_left (fun acc c => acc * 10 + (Z.of_nat (code c) - 48)) l 0.

(** A canonical array index: ["0"] or a decimal numeral without a leading
    zero, below 2^32 - 1. *)
Definition is_array_index (s : string) : bool :=
  let l := list_ascii_of_string s in
  match l with
  | [] => false
  | c :: t => forallb is_digit l && match t with [] => true | _ :: _ => negb (Nat.eqb (code c) 48) end
              && (digits_val l <? 4294967295)
  end.

Definition key_le {A} (a b : string * A) : Prop :=
  digits_val (list_ascii_of_string a.1) <= digits_val (list_ascii_of_string b.1).

#[local] Instance key_le_dec {A} (a b : string * A) : stdpp.base.Decision (key_le a b).
Proof. unfold key_le. apply _. Defined.

(** The order of [Object.keys] / [Object.values]: array indices ascending,
    then the other keys in insertion order. *)
Definition obj_entries {A} (o : jsobj A) : jsobj A :=
  merge_sort key_le (filter (fun e => is_array_index e.1) o)
  ++ filter (fun e => ~ is_array_index e.1) o.

Definition obj_keys {A} (o : jsobj A) : list string := map fst (obj_entries o).
Definition obj_values {A} (o : jsobj A) : list A := map snd (obj_entries o).

(** [krogerByIngredient] / [walmartByIngredient]: the array-valued properties;
    a missing or non-array value reads as [[]]. *)
Definition arr_of (m : gmap string (list product)) (ing : string) : list product :=
  default [] (m !! ing).

Record budget_state : Type := BState {
  fk : jsobj (list product);
  fw : jsobj (list product);
  decisions : list (string * decision) }.

(** One iteration of [for (const ing of ingredients)]. *)
Definition budget_step (kBy wBy : gmap string (list product))
    (st : budget_state) (ing : string) : budget_state :=
  let kArr := arr_of kBy ing in
  let wArr := arr_of wBy ing in
  let d := chooseWinnerForIngredient kArr wArr in
  let fk' := match d_winner d with
             | WKroger => match kArr with [] => fk st | _ :: _ => obj_set (fk st) ing kArr end
             | _ => fk st
             end in
  let fw' := match d_winner d with
             | WWalmart => match wArr with [] => fw st | _ :: _ => obj_set (fw st) ing wArr end
             | _ => fw st
             end in
  BState fk' fw' (decisions st ++ [(ing, d)]).

(** The budget-mode payload of [buildFinalPayload] ([dishName],
    [unmatchedTerms] and [warnings] are passed through and not shown). *)
Record budget_payload : Type := BPayload {
  bp_ingredients : list string;
  bp_krogerProducts : list product;
  bp_walmartProducts : list product;
  bp_matchedInKroger : list string;
  bp_matchedInWalmart : list string;
  bp_krogerByIngredient : jsobj (list product);
  bp_walmartByIngredient : jsobj (list product);
  bp_budgetDecisions : list (string * decision) }.

Definition buildFinalPayload_budget (ingredients : list string)
    (kBy wBy : gmap string (list product)) : budget_payload :=
  let st := foldl (budget_step kBy wBy) (BState [] [] []) ingredients in
  {| bp_ingredients := ingredients;
     bp_krogerProducts := concat (obj_values (fk st));
     bp_walmartProducts := concat (obj_values (fw st));
     bp_matchedInKroger := obj_keys (fk st);
     bp_matchedInWalmart := obj_keys (fw st);
     bp_krogerByIngredient := fk st;
     bp_walmartByIngredient := fw st;
     bp_budgetDecisions := decisions st |}.

End Payload.

(** * [config/kroger.js] *)
Module KrogerApi.
Import Chars.
Local Open Scope Z_scope.

(** The part of an axios error the retry policy reads:
    [e?.response?.status] and [e?.response?.data?.errors?.code]. *)
Record http_err : Type := HttpErr { status : option Z; err_code : option string }.

Inductive outcome (A : Type) : Type :=
| Ok (v : A)
| Err (e : http_err).
Arguments Ok {A} v.
Arguments Err {A} e.

(** [String(code)]: a missing code prints as ["undefined"]. *)
Definition code_string (c : option string) : string :=
  match c with Some s => s | None => "undefined"%string end.

Definition ends_with (s suffix : string) : bool :=
  let n := String.length s in
  let m := String.length suffix in
  (m <=? n)%nat && String.eqb (substring (n - m) m s) suffix.

Definition retryable (e : http_err) : bool :=
  match status e with
  | Some s => (s =? 429) || ((500 <=? s) && (s <=? 599))
  | None => false
  end || ends_with (code_string (err_code e)) "-500".

Inductive retry_event : Type :=
| RCall (attempt : nat)     (* await fn() *)
| RSleep (ms : Z).          (* await sleep(delay) *)

(** The value of [withRetry]: what [fn] returned, or the error it throws
    ([None]: [throw lastErr] with [lastErr] never set). *)
Inductive retry_result (A : Type) : Type :=
| Returned (v : A)
| Thrown (e : option http_err).
Arguments Returned {A} v.
Arguments Thrown {A} e.

Section WithRetry.
Context {A : Type}.
(** [fn] answers its [i]-th call with [fn i]; [jitter i] is
    [Math.floor(Math.random() * 100)] drawn at the [i]-th wait. *)
Variable fn : nat -> outcome A.
Variable jitter : nat -> Z.
Variables retries : nat.
Variable baseMs : Z.

Definition delay (i : nat) : Z := baseMs * 2 ^ Z.of_nat i + jitter i.

(** [for (let i = 0; i <= retries; i++)], [k] the iterations left. *)
Fixpoint retry_loop (i k : nat) (lastErr : option http_err) : retry_result A * list retry_event :=
  match k with
  | O => (Thrown lastErr, [])
  | S k' =>
      match fn i with
      | Ok v => (Returned v, [RCall i])
      | Err e =>
          if (i <? retries)%nat && retryable e then
            let '(r, evs) := retry_loop (S i) k' (Some e) in
            (r, RCall i :: RSleep (delay i) :: evs)
          else (Thrown (Some e), [RCall i])
      end
  end.

Definition withRetry : retry_result A * list retry_event :=
  retry_loop 0 (S retries) None.

End WithRetry.
End KrogerApi.

Module KrogerSearch.
Import Chars KrogerApi.
Local Open Scope Z_scope.

(** [slug(s)]: lower case, drop what is neither [\w] nor [\s], collapse
    white space, trim. *)
Definition slug (s : string) : string :=
  string_of_list_ascii
    (trim (collapse_ws (List.filter (fun c => is_word c || is_space c)
                                    (lower (list_ascii_of_string s))))).

Section Search.
(** The products of a [/products] answer ([data?.data || []]). *)
Context {P : Type}.

(** The query of one [authGet('/products', { params })]:
    [filter.term], [filter.limit] and [filter.locationId] ([""]: not set). *)
Record query : Type := Query { q_term : string; q_limit : N; q_location : string }.

(** Redis entries ([JSON.stringify] / [JSON.parse] of the list is taken as a
    round trip) with their expiry, the clock in seconds, and the
    [authGet] calls made. *)
Record sworld : Type := SWorld {
  cache : gmap string (list P * Z);
  clock : Z;
  api_calls : list query }.

(** [authGet] (token, retries and all): its answer to a query. *)
Variable api : query -> outcome (list P).

Definition redis_get (key : string) (w : sworld) : option (list P) :=
  match cache w !! key with
  | Some (v, exp) => if clock w <? exp then Some v else None
  | None => None
  end.

Definition redis_set (key : string) (v : list P) (ttl : Z) (w : sworld) : sworld :=
  {| cache := <[key := (v, clock w + ttl)]> (cache w); clock := clock w; api_calls := api_calls w |}.

Definition call (q : query) (w : sworld) : outcome (list P) * sworld :=
  (api q, {| cache := cache w; clock := clock w; api_calls := api_calls w ++ [q] |}).

Definition search_key (term locationId : string) (limit : N) : string :=
  "kroger:search:v1:loc=" +:+ (if String.eqb locationId "" then "none" else locationId)
  +:+ ":limit=" +:+ pretty limit +:+ ":q=" +:+ slug term.

(** [status >= 500 || status === 429 || String(code).endsWith('-500')] *)
Definition fallback_status (e : http_err) : bool :=
  match status e with
  | Some s => (500 <=? s) || (s =? 429)
  | None => false
  end || ends_with (code_string (err_code e)) "-500".

(** [searchProductsByTerm(term, { locationId, limit, allowNoLocationFallback })];
    a thrown error is [Err]. *)
Definition searchProductsByTerm (term locationId : string) (limit : N) (allowFallback : bool)
    (w : sworld) : outcome (list P) * sworld :=
  let key := search_key term locationId limit in
  match redis_get key w with
  | Some l => (Ok l, w)
  | None =>
      let '(r, w1) := call (Query term limit locationId) w in
      match r with
      | Ok l => (Ok l, redis_set key l (60 * 60 * 6) w1)
      | Err e =>
          if allowFallback && negb (String.eqb locationId "") && fallback_status e then
            let '(r2, w2) := call (Query term limit "") w1 in
            match r2 with
            | Ok l => (Ok l, redis_set key l (60 * 60 * 6) w2)
            | Err e2 => (Err e2, w2)
            end
          else (Ok [], redis_set key [] (60 * 10) w1)
      end
  end.

End Search.
End KrogerSearch.

(** * The signed OAuth [state]: [b64u], [sign] / [signState], [parseB64u],
    [verify] (agenticSearchGraph.js; KrogerController.js has the same
    [b64u] and [signState]). *)
Module OAuthState.
Local Open Scope Z_scope.

Definition byte (c : ascii) : Z := Z.of_nat (nat_of_ascii c).
Definition of_byte (z : Z) : ascii := ascii_of_nat (Z.to_nat z).

(** The base64 alphabet: A-Z, a-z, 0-9, [+], [/]. *)
Definition b64_char (i : Z) : ascii :=
  if i <? 26 then of_byte (65 + i)
  else if i <? 52 then of_byte (97 + (i - 26))
  else if i <? 62 then of_byte (48 + (i - 52))
  else if i =? 62 then "+"%char else "/"%char.

(** [Buffer.from(bytes).toString("base64")]: three bytes to four characters,
    the last group padded with [=]. *)
Fixpoint b64_encode (l : list ascii) : list ascii :=
  match l with
  | a :: b :: c :: t =>
      let x := byte a in let y := byte b in let z := byte c in
      [b64_char (x / 4); b64_char ((x mod 4) * 16 + y / 16);
       b64_char ((y mod 16) * 4 + z / 64); b64_char (z mod 64)] ++ b64_encode t
  | [a; b] =>
      let x := byte a in let y := byte b in
      [b64_char (x / 4); b64_char ((x mod 4) * 16 + y / 16); b64_char ((y mod 16) * 4); "="%char]
  | [a] =>
      let x := byte a in [b64_char (x / 4); b64_char ((x mod 4) * 16); "="%char; "="%char]
  | [] => []
  end.

(** [s.replace(/x/g, y)] for single characters; [y = None] deletes. *)
Definition replace_char (x : ascii) (y : option ascii) (l : list ascii) : list ascii :=
  flat_map (fun c => if Ascii.eqb c x then match y with Some d => [d] | None => [] end else [c]) l.

(** [b64u(input)] on the bytes of [input]. *)
Definition b64u_l (l : list ascii) : list ascii :=
  replace_char "/" (Some "_"%char)
    (replace_char "+" (Some "-"%char) (replace_char "=" None (b64_encode l))).

Definition b64u (s : string) : string := string_of_list_ascii (b64u_l (list_ascii_of_string s)).

(** The value of a character for Node's base64 decoder (which also takes the
    URL-safe [-] and [_]). *)
Definition unb64 (c : ascii) : option Z :=
  let n := byte c in
  if (65 <=? n) && (n <=? 90) then Some (n - 65)
  else if (97 <=? n) && (n <=? 122) then Some (n - 97 + 26)
  else if (48 <=? n) && (n <=? 57) then Some (n - 48 + 52)
  else if (n =? 43) || (n =? 45) then Some 62
  else if (n =? 47) || (n =? 95) then Some 63
  else None.

(** Node's decoder skips characters outside the alphabet and stops at [=]. *)
Fixpoint sextets (l : list ascii) : list Z :=
  match l with
  | [] => []
  | c :: t =>
      if Ascii.eqb c "=" then []
      else match unb64 c with Some v => v :: sextets t | None => sextets t end
  end.

Fixpoint b64_groups (v : list Z) : list ascii :=
  match v with
  | a :: b :: c :: d :: t =>
      [of_byte (a * 4 + b / 16); of_byte ((b mod 16) * 16 + c / 4); of_byte ((c mod 4) * 64 + d)]
      ++ b64_groups t
  | [a; b; c] => [of_byte (a * 4 + b / 16); of_byte ((b mod 16) * 16 + c / 4)]
  | [a; b] => [of_byte (a * 4 + b / 16)]
  | _ => []
  end.

(** [Buffer.from(s, "base64")] *)
Definition b64_decode (l : list ascii) : list ascii := b64_groups (sextets l).

(** [str.split(".")] *)
Fixpoint split_dot (s : list ascii) : list (list ascii) :=
  match s with
  | [] => [[]]
  | c :: s' =>
      let r := split_dot s' in
      if Ascii.eqb c "." then [] :: r
      else match r with
           | w :: r' => (c :: w) :: r'
           | [] => [[c]]
           end
  end.

Section Sign.
(** A state object, [JSON.stringify] and [JSON.parse] ([None]: it throws), and
    the HMAC-SHA256 digest under [APP_SECRET] (its 32 bytes). Strings are
    their UTF-8 bytes, so [Buffer.from(s)] and [.toString("utf8")] are the
    identity on them. *)
Context {obj : Type}.
Variable stringify : obj -> string.
Variable parse : string -> option obj.
Variable hmac : string -> list ascii.

(** [digest("base64url")]: unpadded URL-safe base64, the same text as [b64u]. *)
Definition digest_b64url (body : string) : string :=
  string_of_list_ascii (b64u_l (hmac body)).

Definition sign (o : obj) : string :=
  let body := b64u (stringify o) in
  (body +:+ "." +:+ digest_b64url body)%string.

Definition parseB64u (str : string) : option obj :=
  parse (string_of_list_ascii
           (b64_decode (replace_char "_" (Some "/"%char)
                          (replace_char "-" (Some "+"%char) (list_ascii_of_string str))))).

Definition verify (state : string) : option obj :=
  let l := list_ascii_of_string state in
  if bool_decide (l = []) then None
  else if negb (existsb (fun c => Ascii.eqb c ".") l) then None
  else
    match split_dot l with
    | body :: sig :: _ =>
        let body_s := string_of_list_ascii body in
        if String.eqb (string_of_list_ascii sig) (digest_b64url body_s) then parseB64u body_s
        else None
    | _ => None
    end.

End Sign.
End OAuthState.

(** [getLocationIdByZip] of [config/kroger.js]. *)
Module KrogerLoc.
Import KrogerApi.
Local Open Scope Z_scope.

(** Redis entries of the [kroger:locid:v1:*] keys with their expiry, the
    clock in seconds, and the zip codes sent to [/locations]. *)
Record lworld : Type := LWorld {
  lcache : gmap string (string * Z);
  lclock : Z;
  lcalls : list string }.

Section Loc.
(** [authGet('/locations', { params: { 'filter.zipCode.near': zip, ... } })]:
    the [data?.data?.[0]?.locationId] of its answer ([None]: absent), or the
    error it throws. *)
Variable api_loc : string -> outcome (option string).

Definition lredis_get (key : string) (w : lworld) : option string :=
  match lcache w !! key with
  | Some (v, exp) => if lclock w <? exp then Some v else None
  | None => None
  end.

Definition lredis_set (key v : string) (ttl : Z) (w : lworld) : lworld :=
  {| lcache := <[key := (v, lclock w + ttl)]> (lcache w); lclock := lclock w; lcalls := lcalls w |}.

Definition loc_key (zip : string) : string := "kroger:locid:v1:" +:+ KrogerSearch.slug zip.

(** [getLocationIdByZip(zip)]; a thrown error is [Err]. *)
Definition getLocationIdByZip (zip : string) (w : lworld) : outcome (option string) * lworld :=
  let key := loc_key zip in
  let fetch :=
    let w1 := {| lcache := lcache w; lclock := lclock w; lcalls := lcalls w ++ [zip] |} in
    match api_loc zip with
    | Err e => (Err e, w1)
    | Ok raw =>
        (* [data?.data?.[0]?.locationId || null] *)
        match raw with
        | Some id => if String.eqb id "" then (Ok None, w1)
                     else (Ok (Some id), lredis_set key id (60 * 60 * 24 * 7) w1)
        | None => (Ok None, w1)
        end
    end in
  match lredis_get key w with
  | Some hit => if String.eqb hit "" then fetch else (Ok (Some hit), w)
  | None => fetch
  end.

End Loc.
End KrogerLoc.

(** [getAppToken] of [config/kroger.js]: the module-level [appToken] and
    [appTokenExp]. *)
Module AppToken.
Import KrogerApi.
Local Open Scope Z_scope.

(** [appToken], [appTokenExp], [Math.floor(Date.now() / 1000)] and the
    number of token requests made. *)
Record tworld : Type := TWorld {
  appToken : option string;
  appTokenExp : Z;
  tnow : Z;
  token_requests : nat }.

(** The [data] of a token response: [access_token] and [expires_in]
    ([None]: absent). *)
Record token_data : Type := TokenData { access_token : option string; expires_in : option Z }.

Section App.
(** The value of the [k]-th [withRetry(() => axios.post(.../token ...))]. *)
Variable token_req : nat -> retry_result token_data.

Definition truthy (o : option string) : bool :=
  match o with Some s => negb (String.eqb s "") | None => false end.

(** [data.expires_in || 1799] *)
Definition expires_or_default (e : option Z) : Z :=
  match e with Some n => if n =? 0 then 1799 else n | None => 1799 end.

Definition getAppToken (w : tworld) : retry_result (option string) * tworld :=
  let now := tnow w in
  if truthy (appToken w) && (now <? appTokenExp w - 60) then (Returned (appToken w), w)
  else
    match token_req (token_requests w) with
    | Thrown e =>
        (Thrown e, {| appToken := appToken w; appTokenExp := appTokenExp w; tnow := now;
                      token_requests := S (token_requests w) |})
    | Returned data =>
        (Returned (access_token data),
         {| appToken := access_token data; appTokenExp := now + expires_or_default (expires_in data);
            tnow := now; token_requests := S (token_requests w) |})
    end.

End App.
End AppToken.

(* ================================================================== *)
(** * Concrete inputs used by the properties *)

Import Chars Regex Units Js Offers.

Definition unpriced_milk : product := Product "Whole Milk" JUndefined "" None.
Definition priced_milk : product := Product "Whole Milk" (JNum (JFin (199 # 100))) "" None.

(** The array the extraction stage interprets: the cached one on a cache
    hit, else the oracle's ([[]] when its response is unparsable). *)
Definition oracle_array (e : Pipeline.env) : list string :=
  match Pipeline.llm1_cache e with
  | Some arr => arr
  | None => default [] (Pipeline.llm1 e)
  end.

(** The policy of section 4.1 of the specification, from its words. *)
Definition spec_ingredient_set (arr : list string) : option string * list string :=
  match arr with
  | [] => (None, [])
  | [x] => (None, [x])
  | d :: rest => (Some d, rest)
  end.

Definition is_catalog_or_cart (ev : Pipeline.event) : bool :=
  match ev with
  | Pipeline.ELocationLookup | Pipeline.ECatalogSearch _ | Pipeline.ECartAdd _ => true
  | _ => false
  end.

(** A run for the query "tomato": three catalog candidates, and index picks
    that are all outside the pool. *)
Definition tomato_pool : list Pipeline.kproduct :=
  [ Pipeline.KProduct "p0" "Roma Tomatoes" "0001";
    Pipeline.KProduct "p1" "Cherry Tomatoes" "0002";
    Pipeline.KProduct "p2" "Tomato on the Vine" "0003" ].

Definition env_bad_indices : Pipeline.env :=
  {| Pipeline.passCount := 20;
     Pipeline.llm1_cache := None;
     Pipeline.llm1 := Some ["tomato"];
     Pipeline.has_user := false;
     Pipeline.user_locationId := None;
     Pipeline.zip_locationId := Some "01400943";
     Pipeline.search := fun _ => Some tomato_pool;
     Pipeline.llm2_cache := None;
     Pipeline.llm2 := Some [Pipeline.Pick "tomato" [JNum (JFin 7); JNum (JFin (-1))]] |}.

(** A dish whose ingredient list repeats a term, with no usable pick: the
    Kroger result has the repeated ingredient unmatched and no warning. *)
Definition env_repeated_term : Pipeline.env :=
  {| Pipeline.passCount := 20;
     Pipeline.llm1_cache := None;
     Pipeline.llm1 := Some ["Tomato Salad"; "tomato"; "tomato"];
     Pipeline.has_user := false;
     Pipeline.user_locationId := None;
     Pipeline.zip_locationId := Some "01400943";
     Pipeline.search := fun _ => Some tomato_pool;
     Pipeline.llm2_cache := None;
     Pipeline.llm2 := Some [Pipeline.Pick "tomato" [JNum (JFin 7)];
                            Pipeline.Pick "tomato" [JNum (JFin 9)]] |}.

(** The [PUT /cart/add] calls of a log: the UPC and the status answered. *)
Definition put_log (l : list Cart.cevent) : list (string * Z) :=
  omap (fun e => match e with Cart.CPut _ upc s => Some (upc, s) | _ => None end) l.

(** The statuses one item receives: one attempt, or two when the first one
    was answered 401 or 403. *)
Definition attempts_ok (ss : list Z) : bool :=
  match ss with
  | [_] => true
  | [s1; _] => Z.eqb s1 401 || Z.eqb s1 403
  | _ => false
  end.

Definition final_status (ss : list Z) : Z := default 0%Z (last ss).

(** The PUT calls made for a list of items, each with its statuses. *)
Definition seg_log (segs : list (Cart.item * list Z)) : list (string * Z) :=
  concat (map (fun seg => map (fun s => (Cart.it_upc seg.1, s)) seg.2) segs).

Definition succeeded_segs (segs : list (Cart.item * list Z)) : list Cart.item :=
  map fst (List.filter (fun seg => Cart.is_2xx (final_status seg.2)) segs).

(** [cartSnapshot.set(it.upc, it.quantity)] *)
Definition snap_ins (m : gmap string jsnum) (it : Cart.item) : gmap string jsnum :=
  <[Cart.it_upc it := Cart.it_quantity it]> m.

(** The snapshot those calls build from the empty map. *)
Definition snapshot_of (its : list Cart.item) : gmap string jsnum := foldl snap_ins ∅ its.

Definition succeeded (r : Cart.cart_result) : list Cart.item :=
  match r with
  | Cart.CartOk _ _ its => its
  | _ => []
  end.

(** A logged-in user with a valid token and a snapshot left by an earlier
    run; a cart endpoint that answers 500 for the UPC "u3" and 200 otherwise. *)
Definition tok_user : Cart.kcred :=
  Cart.KCred (Some "tok") (Some 1000000000%Z) (Some "rt") {[ "old" := JFin 3 ]}.

Definition world0 : Cart.world := Cart.World (Some tok_user) 0%Z [].

Definition remote_u3_fails : Cart.remote :=
  Cart.Remote (fun _ => None)
              (fun _ _ upc => if String.eqb upc "u3" then 500%Z else 200%Z).

Definition five_items : list Cart.cart_input :=
  map (fun s => Cart.CartInput (Some s) (JNum (JFin 1))) ["u1"; "u2"; "u3"; "u4"; "u5"].

(** Inputs with a padded UPC, a missing one, a blank one and a repeat. *)
Definition messy_items : list Cart.cart_input :=
  [ Cart.CartInput (Some " u1 ") (JNum (JFin 2));
    Cart.CartInput None (JNum (JFin 1));
    Cart.CartInput (Some "  ") JUndefined;
    Cart.CartInput (Some "u1") (JNum (JFin 5));
    Cart.CartInput (Some "u2") JUndefined ].

(* ================================================================== *)
(** * Properties *)

(** ** Unit conversion *)

(** Claim C6: ["2 L"] and ["2000 ml"] both parse as a volume in fluid
    ounces ([n l -> n * 33.8140227], [n ml -> n * 0.0338140227]) and the two
    quantities are equal (exactly, in the rational model of the numbers). *)
Theorem parse_liter_ml_same_volume :
  exists q1 q2,
    parseUnitQuantityFromText "2 L" = Some (UVolumeFloz, q1) /\
    parseUnitQuantityFromText "2000 ml" = Some (UVolumeFloz, q2) /\
    (q1 == 2 * (338140227 # 10000000))%Q /\
    (q2 == 2000 * (338140227 # 10000000000))%Q /\
    (q1 == q2)%Q.
Proof.
  eexists; eexists; split; [vm_compute; reflexivity|].
  split; [vm_compute; reflexivity|].
  split; [vm_compute; reflexivity|].
  split; vm_compute; reflexivity.
Qed.

(** ** Winner selection *)

Lemma Qltb_negb_Qle (a b : Q) : Qltb a b = negb (Qle_bool b a).
Proof. reflexivity. Qed.

(** Claim C2: the cross-retailer decision of [chooseWinnerForIngredient]
    is the four-branch order of the specification applied to the two
    retailers' best offers: only one offer, no offer, same-kind unit price
    (ties to Kroger), absolute price (ties to Kroger).  It is a total function
    of the two best offers; mismatched unit kinds reach the price branch. *)
Theorem winner_four_branch_order (kArr wArr : list product) :
  let d := chooseWinnerForIngredient kArr wArr in
  (d_winner d, d_reason d) =
    spec_winner (bestComparableOffer kArr) (bestComparableOffer wArr) /\
  d_krogerBest d = bestComparableOffer kArr /\
  d_walmartBest d = bestComparableOffer wArr.
Proof.
  unfold chooseWinnerForIngredient, spec_winner; cbn zeta.
  destruct (bestComparableOffer kArr) as [kb|], (bestComparableOffer wArr) as [wb|];
    try (repeat split; reflexivity).
  destruct (o_unitPrice kb) as [ku|], (o_unitPrice wb) as [wu|];
    rewrite ?Qltb_negb_Qle;
    try (destruct (Qle_bool (o_price kb) (o_price wb)); repeat split; reflexivity).
  destruct (decide (o_unitKind kb = o_unitKind wb)) as [Heq|Hne].
  - rewrite bool_decide_true by exact Heq.
    destruct (Qle_bool ku wu); repeat split; reflexivity.
  - rewrite bool_decide_false by exact Hne.
    destruct (Qle_bool (o_price kb) (o_price wb)); repeat split; reflexivity.
Qed.

(** ** Unpriced products in best-offer selection *)


Lemma Qltb_false_of_le (a b : Q) : (b <= a)%Q -> Qltb a b = false.
Proof.
  intros H. unfold Qltb. apply Qle_bool_iff in H. rewrite H. reflexivity.
Qed.

(** Claim C8: a product whose price is missing, or does not convert to a
    finite number, gets the absolute price [0] in its offer; a running best
    with price [0] is never displaced by a positively priced product when the
    comparison falls back to absolute price; so an unpriced product is
    selected over a priced one, in either order. *)
Theorem unpriced_product_is_free :
  (forall p : product,
     price p = JUndefined \/ is_finite (price_number p) = false ->
     o_price (make_offer p) = 0%Q) /\
  (forall (b : offer) (p : product),
     (o_price b == 0)%Q -> (0 < o_price (make_offer p))%Q ->
     ~ (exists up bp, o_unitPrice (make_offer p) = Some up /\
                      o_unitPrice b = Some bp /\
                      o_unitKind (make_offer p) = o_unitKind b) ->
     better b (make_offer p) = b) /\
  bestComparableOffer [unpriced_milk; priced_milk] = Some (make_offer unpriced_milk) /\
  bestComparableOffer [priced_milk; unpriced_milk] = Some (make_offer unpriced_milk).
Proof.
  split; [|split; [|split]].
  - intros p [Hp|Hp]; unfold make_offer; cbn zeta; cbn [o_price].
    + unfold price_number. rewrite Hp. reflexivity.
    + destruct (price_number p); [discriminate Hp|reflexivity|reflexivity].
  - intros b p Hb Hpos Hnot.
    assert (Hle : (o_price b <= o_price (make_offer p))%Q).
    { rewrite Hb. apply Qlt_le_weak. exact Hpos. }
    unfold better.
    destruct (o_unitPrice (make_offer p)) as [up|] eqn:Eu,
             (o_unitPrice b) as [bp|] eqn:Eb;
      try (rewrite Qltb_false_of_le by exact Hle; reflexivity).
    destruct (decide (o_unitKind (make_offer p) = o_unitKind b)) as [Hk|Hk].
    + exfalso. apply Hnot. exists up, bp. auto.
    + rewrite Qltb_false_of_le by exact Hle. reflexivity.
  - vm_compute. reflexivity.
  - vm_compute. reflexivity.
Qed.

(** ** Ingredient extraction *)

Ltac unfold_W := unfold mbind, mret, Pipeline.W_bind, Pipeline.W_ret in *.

Lemma interpret_spec (arr : list string) :
  Pipeline.interpret arr = spec_ingredient_set arr.
Proof. destruct arr as [|x [|y l]]; reflexivity. Qed.

Lemma extract_result (e : Pipeline.env) (tr : list Pipeline.event) :
  (Pipeline.extract e tr).1 = Pipeline.interpret (oracle_array e).
Proof.
  unfold Pipeline.extract, oracle_array. unfold_W. cbn.
  destruct (Pipeline.llm1_cache e); reflexivity.
Qed.

Lemma extract_no_catalog (e : Pipeline.env) :
  Forall (fun ev => is_catalog_or_cart ev = false) (Pipeline.extract e []).2.
Proof.
  unfold Pipeline.extract. unfold_W. cbn.
  destruct (Pipeline.llm1_cache e); cbn; repeat constructor.
Qed.

(** Claim C1: the extraction stage reads the oracle's array as: one element,
    a bare ingredient and no dish name; more than one, the dish name then the
    ingredients.  An empty array (also what an unparsable response becomes)
    ends the run early with no products, no ingredients and the single
    warning [no_ingredients], and the run makes no catalog or cart call. *)
Theorem extraction_policy (e : Pipeline.env) :
  (Pipeline.extract e []).1 = spec_ingredient_set (oracle_array e) /\
  match oracle_array e with
  | [] =>
      let '(pl, tr) := Pipeline.runKrogerSearchPipeline e [] in
      Pipeline.products pl = [] /\ Pipeline.ingredients pl = [] /\
      Pipeline.warnings pl = [Pipeline.WCode "no_ingredients"] /\
      Forall (fun ev => is_catalog_or_cart ev = false) tr
  | _ => True
  end.
Proof.
  rewrite extract_result, interpret_spec. split; [reflexivity|].
  destruct (oracle_array e) as [|x l] eqn:Earr; [|exact I].
  pose proof (extract_result e []) as Hr. rewrite Earr in Hr.
  pose proof (extract_no_catalog e) as Hc.
  unfold Pipeline.runKrogerSearchPipeline. unfold_W.
  destruct (Pipeline.extract e []) as [[dish ings] tr1] eqn:E.
  cbn in Hr, Hc. inversion Hr; subst. cbn.
  repeat split; try reflexivity.
  apply Forall_app. split; [exact Hc|]. repeat constructor.
Qed.

(** ** Index-match stage *)

(** Claim C4 (the code falls short of it): an index outside [[0, titles.length)]
    is dropped by [kroger_resolve] without failing; but a run whose picks are
    all out of range ends with no products, the ingredient unmatched, and no
    warning at all: the live pipeline never emits [no_valid_indices]. *)
Theorem out_of_range_picks_emit_no_warning :
  (forall (pool : list Pipeline.kproduct) (titles : list string) (i : Z),
     (i < 0 \/ Z.of_nat (List.length titles) <= i)%Z ->
     Pipeline.kroger_resolve pool titles i = None) /\
  let '(pl, _) := Pipeline.runKrogerSearchPipeline env_bad_indices [] in
  Pipeline.products pl = [] /\ Pipeline.matchedInKroger pl = [] /\
  Pipeline.warnings pl = [] /\
  Pipeline.ingredients pl = ["tomato"].
Proof.
  split.
  - intros pool titles i [Hi|Hi]; unfold Pipeline.kroger_resolve.
    + rewrite (proj2 (Z.ltb_lt i 0) Hi). reflexivity.
    + rewrite (proj2 (Z.leb_le _ i) Hi), orb_true_r. reflexivity.
  - vm_compute. repeat split; reflexivity.
Qed.

Lemma find_desc_some (t : string) (pool : list Pipeline.kproduct) :
  t ∈ map Pipeline.description pool ->
  exists p, Pipeline.find_desc t pool = Some p /\ Pipeline.description p = t.
Proof.
  induction pool as [|q pool IH]; cbn; intros H.
  - apply elem_of_nil in H. contradiction.
  - destruct (String.eqb_spec (Pipeline.description q) t) as [Heq|Hne].
    + exists q. auto.
    + apply elem_of_cons in H as [H|H]; [congruence|auto].
Qed.

Lemma find_name_some (t : string) (pool : list Walmart.witem) :
  t ∈ map Walmart.w_name pool ->
  exists it, Walmart.find_name t pool = Some it /\ Walmart.w_name it = t.
Proof.
  induction pool as [|q pool IH]; cbn; intros H.
  - apply elem_of_nil in H. contradiction.
  - destruct (String.eqb_spec (Walmart.w_name q) t) as [Heq|Hne].
    + exists q. auto.
    + apply elem_of_cons in H as [H|H]; [congruence|auto].
Qed.

Lemma elem_of_take_sub {A : Type} (x : A) (n : nat) (l : list A) :
  x ∈ take n l -> x ∈ l.
Proof.
  intros H. apply elem_of_take in H as [j [Hj _]].
  eapply list_elem_of_lookup_2. exact Hj.
Qed.

(** Claim C5: a surviving (in-range) index is resolved to its title and the
    title to a record by exact title match first.  In the Kroger path
    ([pool.find(p => p.description === title) || pool[i]]) and in the Walmart
    path ([pool.find(exact) || byNorm.get(normTitle(t))]) the exact match
    always succeeds for a title taken from the pool, so the fallback and the
    [title_not_in_pool] case are never reached. *)
Theorem title_resolution_exact_first
    (pool : list Pipeline.kproduct) (n i : nat)
    (wpool : list Walmart.witem) (t : string)
    (Hi : i < List.length (take n (map Pipeline.description pool)))
    (Ht : t ∈ Walmart.walmart_titles n wpool) :
  (exists title p,
     take n (map Pipeline.description pool) !! i = Some title /\
     Pipeline.find_desc title pool = Some p /\
     Pipeline.description p = title /\
     Pipeline.kroger_resolve pool (take n (map Pipeline.description pool)) (Z.of_nat i)
       = Some p) /\
  (exists it,
     Walmart.find_name t wpool = Some it /\ Walmart.w_name it = t /\
     Walmart.walmart_resolve wpool t = Some it).
Proof.
  split.
  - destruct (lookup_lt_is_Some_2 _ _ Hi) as [title Htitle].
    assert (Hin : title ∈ map Pipeline.description pool).
    { apply (elem_of_take_sub _ n). eapply list_elem_of_lookup_2. exact Htitle. }
    destruct (find_desc_some _ _ Hin) as [p [Hp Hd]].
    exists title, p. repeat split; try assumption.
    unfold Pipeline.kroger_resolve.
    assert (H1 : Z.ltb (Z.of_nat i) 0 = false) by (apply Z.ltb_ge; lia).
    assert (H2 : Z.leb (Z.of_nat (List.length (take n (map Pipeline.description pool))))
                       (Z.of_nat i) = false) by (apply Z.leb_gt; lia).
    rewrite H1, H2. cbn. rewrite Nat2Z.id, Htitle, Hp. reflexivity.
  - unfold Walmart.walmart_titles in Ht.
    apply elem_of_take_sub, list_elem_of_filter in Ht as [_ Ht].
    destruct (find_name_some _ _ Ht) as [it [Hit Hn]].
    exists it. unfold Walmart.walmart_resolve. rewrite Hit. auto.
Qed.

(** A pool of two Walmart items and a Kroger pool, with a title from each. *)
Lemma title_resolution_exact_first_witness :
  exists p it,
    Pipeline.kroger_resolve tomato_pool
      (take 20 (map Pipeline.description tomato_pool)) 1%Z = Some p /\
    Walmart.walmart_resolve [Walmart.WItem "w1" "Roma Tomato"; Walmart.WItem "w2" "Tomatoes!"]
      "Tomatoes!" = Some it.
Proof.
  destruct (title_resolution_exact_first tomato_pool 20 1
              [Walmart.WItem "w1" "Roma Tomato"; Walmart.WItem "w2" "Tomatoes!"]
              "Tomatoes!")
    as [[title [p [_ [_ [_ Hp]]]]] [it [_ [_ Hit]]]].
  - vm_compute. lia.
  - vm_compute. right. left.
  - exists p, it. split; [exact Hp|exact Hit].
Defined.

(** ** Walmart term selection *)

Lemma dedup_str_spec (seen l : list string) :
  NoDup (Walmart.dedup_str seen l) /\
  Forall (fun x => x ∉ seen) (Walmart.dedup_str seen l).
Proof.
  revert seen. induction l as [|x l IH]; intros seen; cbn.
  - split; constructor.
  - case_bool_decide as Hx; [apply IH|].
    destruct (IH (x :: seen)) as [Hnd Hall]. split.
    + constructor; [|exact Hnd].
      intros Hin. rewrite Forall_forall in Hall.
      apply (Hall x Hin). apply elem_of_cons. left. reflexivity.
    + constructor; [exact Hx|].
      eapply Forall_impl; [exact Hall|].
      intros y Hy Hys. apply Hy. apply elem_of_cons. right. exact Hys.
Qed.

Lemma extractUnmatchedTerms_NoDup (ws : list Pipeline.warning) :
  NoDup (Walmart.extractUnmatchedTerms ws).
Proof.
  unfold Walmart.extractUnmatchedTerms.
  eapply sublist_NoDup; [apply dedup_str_spec|apply sublist_take].
Qed.

(** Claim C10 (counterexample): in non-budget mode, when no warning names
    an unmatched term, the fallback forwards the unmatched ingredients as
    they are; a repeated ingredient is forwarded twice. *)
Lemma walmart_terms_fallback_repeats :
  let k := (Pipeline.runKrogerSearchPipeline env_repeated_term []).1 in
  Walmart.walmartTerms false k = ["tomato"; "tomato"] /\
  ~ NoDup (Walmart.walmartTerms false k).
Proof.
  cbn zeta.
  assert (H : Walmart.walmartTerms false
                (Pipeline.runKrogerSearchPipeline env_repeated_term []).1
              = ["tomato"; "tomato"]) by (vm_compute; reflexivity).
  rewrite H. split; [reflexivity|].
  intros Hnd. apply NoDup_cons in Hnd as [Hn _]. apply Hn.
  apply elem_of_cons. left. reflexivity.
Qed.

(** Claim C10, as amended: budget mode forwards the whole ingredient list;
    non-budget mode forwards at most 6 terms: the terms named by warnings
    (trimmed, lower-cased, deduplicated) when there are any, otherwise the
    first 6 Kroger-unmatched ingredients in order, repeats included.  The
    Walmart stage itself deduplicates the terms it receives. *)
Theorem walmart_terms_bounded (k : Pipeline.payload) (terms : list string) :
  Walmart.walmartTerms true k = Pipeline.ingredients k /\
  List.length (Walmart.walmartTerms false k) <= 6 /\
  NoDup (Walmart.extractUnmatchedTerms (Pipeline.warnings k)) /\
  match Walmart.extractUnmatchedTerms (Pipeline.warnings k) with
  | [] => Walmart.walmartTerms false k =
            take 6 (filter (fun ing => negb (bool_decide (ing ∈ Pipeline.matchedInKroger k)))
                           (Pipeline.ingredients k))
  | fw => Walmart.walmartTerms false k = fw
  end /\
  NoDup (Walmart.walmart_ingList terms).
Proof.
  split; [reflexivity|].
  split.
  - unfold Walmart.walmartTerms. cbn zeta.
    destruct (Walmart.extractUnmatchedTerms (Pipeline.warnings k)) as [|x l] eqn:E.
    + rewrite length_take. lia.
    + rewrite <- E. unfold Walmart.extractUnmatchedTerms. rewrite length_take. lia.
  - split; [apply extractUnmatchedTerms_NoDup|].
    split; [|apply dedup_str_spec].
    unfold Walmart.walmartTerms. cbn zeta.
    destruct (Walmart.extractUnmatchedTerms (Pipeline.warnings k)); reflexivity.
Qed.

(** ** Cart synchronisation *)

Ltac unfold_St :=
  unfold mbind, mret, Cart.St_bind, Cart.St_ret in *.

Lemma put_log_app l1 l2 : put_log (l1 ++ l2) = put_log l1 ++ put_log l2.
Proof. unfold put_log. apply omap_app. Qed.

Lemma getValidUserToken_spec R u w :
  let '(r, w') := Cart.getValidUserToken R u w in
  (exists evs, Cart.log w' = Cart.log w ++ evs /\ put_log evs = []) /\
  (Cart.db w' = Cart.db w \/ Cart.db w' = Some r.2) /\
  Cart.cartSnapshot r.2 = Cart.cartSnapshot u.
Proof.
  unfold Cart.getValidUserToken, Cart.refreshWithRefreshToken, Cart.get_now,
    Cart.record, Cart.save. unfold_St. cbn.
  destruct (Cart.isTokenValid u (Cart.now w)); cbn.
  { split; [exists []; rewrite app_nil_r; auto|auto]. }
  destruct (Cart.refreshToken u) as [rt|]; cbn.
  2: { split; [exists []; rewrite app_nil_r; auto|auto]. }
  destruct (Cart.token_endpoint R rt) as [[[acc nrt] ei]|]; cbn.
  - split; [exists [Cart.CTokenRequest; Cart.CSave]; rewrite <- app_assoc; auto|auto].
  - split; [exists [Cart.CTokenRequest]; auto|auto].
Qed.

Lemma process_item_spec R ls it w :
  let '(ls', w') := Cart.process_item R ls it w in
  exists ss, attempts_ok ss = true /\
    put_log (Cart.log w') = put_log (Cart.log w) ++ map (fun s => (Cart.it_upc it, s)) ss /\
    Cart.l_added ls' = (Cart.l_added ls + if Cart.is_2xx (final_status ss) then 1 else 0)%nat /\
    Cart.l_items ls' = Cart.l_items ls ++ (if Cart.is_2xx (final_status ss) then [it] else []) /\
    Cart.cartSnapshot (Cart.l_user ls') =
      (if Cart.is_2xx (final_status ss)
       then snap_ins (Cart.cartSnapshot (Cart.l_user ls)) it
       else Cart.cartSnapshot (Cart.l_user ls)).
Proof.
  unfold Cart.process_item, Cart.put, Cart.sleep220. unfold_St. cbn.
  set (s1 := Cart.cart_status R (Cart.log w) (Cart.l_token ls) (Cart.it_upc it)).
  set (w1 := {| Cart.db := Cart.db w; Cart.now := Cart.now w;
                Cart.log := Cart.log w ++ [Cart.CPut (Cart.l_token ls) (Cart.it_upc it) s1] |}).
  unfold final_status.
  destruct (Z.eqb s1 401 || Z.eqb s1 403) eqn:E401; cbn.
  - pose proof (getValidUserToken_spec R (Cart.l_user ls) w1) as G.
    destruct (Cart.getValidUserToken R (Cart.l_user ls) w1) as [[refreshed u'] w2] eqn:Eg.
    cbn in G. destruct G as [[evs [Hlog Hput]] [_ Hsnap]].
    destruct refreshed as [r|]; cbn.
    + destruct (String.eqb r "" || String.eqb r (Cart.l_token ls)); cbn.
      * exists [s1]. split; [reflexivity|].
        rewrite !put_log_app, Hlog, !put_log_app, Hput. cbn.
        rewrite !app_nil_r. split; [reflexivity|].
        destruct (Cart.is_2xx s1); cbn; rewrite ?Hsnap; repeat split; try lia; by rewrite ?app_nil_r.
      * set (s2 := Cart.cart_status R (Cart.log w2) r (Cart.it_upc it)).
        exists [s1; s2]. split; [exact E401|].
        rewrite !put_log_app, Hlog, !put_log_app, Hput. cbn.
        rewrite !app_nil_r, <- app_assoc. split; [reflexivity|].
        destruct (Cart.is_2xx s2); cbn; rewrite ?Hsnap; repeat split; try lia; by rewrite ?app_nil_r.
    + exists [s1]. split; [reflexivity|].
      rewrite !put_log_app, Hlog, !put_log_app, Hput. cbn.
      rewrite !app_nil_r. split; [reflexivity|].
      destruct (Cart.is_2xx s1); cbn; rewrite ?Hsnap; repeat split; try lia; by rewrite ?app_nil_r.
  - exists [s1]. split; [reflexivity|].
    rewrite !put_log_app. cbn. rewrite app_nil_r. split; [reflexivity|].
    destruct (Cart.is_2xx s1); cbn; repeat split; try lia; by rewrite ?app_nil_r.
Qed.

Lemma loop_spec R its ls w :
  let '(ls', w') := Cart.St_fold (Cart.process_item R) ls its w in
  exists segs : list (Cart.item * list Z),
    map fst segs = its /\
    Forall (fun seg => attempts_ok seg.2 = true) segs /\
    put_log (Cart.log w') = put_log (Cart.log w) ++ seg_log segs /\
    Cart.l_items ls' = Cart.l_items ls ++ succeeded_segs segs /\
    Cart.l_added ls' = (Cart.l_added ls + length (succeeded_segs segs))%nat /\
    Cart.cartSnapshot (Cart.l_user ls') =
      foldl snap_ins (Cart.cartSnapshot (Cart.l_user ls)) (succeeded_segs segs).
Proof.
  revert ls w. induction its as [|it its IH]; intros ls w; cbn.
  - exists []. cbn. rewrite !app_nil_r. repeat split; auto; lia.
  - unfold_St.
    pose proof (process_item_spec R ls it w) as P.
    destruct (Cart.process_item R ls it w) as [ls1 w1].
    destruct P as [ss [Hok [Hput [Hadd [Hitems Hsnap]]]]].
    specialize (IH ls1 w1).
    destruct (Cart.St_fold (Cart.process_item R) ls1 its w1) as [ls2 w2].
    destruct IH as [segs [Hfst [Hall [Hput' [Hitems' [Hadd' Hsnap']]]]]].
    exists ((it, ss) :: segs).
    assert (Hf : succeeded_segs ((it, ss) :: segs) =
                 (if Cart.is_2xx (final_status ss) then [it] else []) ++ succeeded_segs segs).
    { unfold succeeded_segs. simpl List.filter.
      destruct (Cart.is_2xx (final_status ss)); reflexivity. }
    rewrite Hf.
    split; [by rewrite <- Hfst|].
    split; [by constructor|].
    split; [by rewrite Hput', Hput, <- app_assoc|].
    rewrite Hitems', Hitems, Hadd', Hadd, Hsnap', Hsnap, <- app_assoc, foldl_app, length_app.
    destruct (Cart.is_2xx (final_status ss)); cbn; repeat split; try lia; reflexivity.
Qed.

Lemma add_run_spec R l w u :
  Cart.db w = Some u ->
  let '(res, w') := Cart.addKrogerItemsToCart R l w in
  match res with
  | Cart.CartOk added skipped its =>
      skipped = 0%nat /\
      exists segs : list (Cart.item * list Z),
        map fst segs = Cart.prepare l /\
        Forall (fun seg => attempts_ok seg.2 = true) segs /\
        put_log (Cart.log w') = put_log (Cart.log w) ++ seg_log segs /\
        its = succeeded_segs segs /\ added = length its
  | Cart.CartNeedAuth _ => put_log (Cart.log w') = put_log (Cart.log w)
  | Cart.CartError _ => False
  end.
Proof.
  intros Hu.
  unfold Cart.addKrogerItemsToCart, Cart.find_user, Cart.save. unfold_St. cbn.
  rewrite Hu.
  destruct (Cart.prepare l) as [|it0 its0] eqn:Ep; cbn -[Cart.St_fold].
  { split; [reflexivity|]. exists []. cbn. rewrite put_log_app, app_nil_r.
    repeat split; auto. by rewrite app_nil_r. }
  set (w1 := {| Cart.db := Some u; Cart.now := Cart.now w;
                Cart.log := Cart.log w ++ [Cart.CFindUser] |}).
  pose proof (getValidUserToken_spec R u w1) as G.
  destruct (Cart.getValidUserToken R u w1) as [[tok u1] w2].
  destruct G as [[evs [Hlog Hput]] _].
  assert (Hp2 : put_log (Cart.log w2) = put_log (Cart.log w)).
  { rewrite Hlog, !put_log_app, Hput. subst w1. cbn [Cart.log].
    rewrite put_log_app. change (put_log [Cart.CFindUser]) with (@nil (string * Z)).
    by rewrite !app_nil_r. }
  destruct tok as [[|c s]|]; cbn -[Cart.St_fold]; try exact Hp2.
  pose proof (loop_spec R (it0 :: its0) (Cart.LoopState (String c s) u1 0 []) w2) as L.
  destruct (Cart.St_fold (Cart.process_item R) (Cart.LoopState (String c s) u1 0 [])
              (it0 :: its0) w2) as [ls w3].
  destruct L as [segs [Hfst [Hall [Hput3 [Hitems [Hadd _]]]]]].
  cbn in *. split; [reflexivity|]. exists segs.
  rewrite Hfst, put_log_app, Hput3, Hp2. cbn. rewrite app_nil_r.
  repeat split; auto. rewrite Hadd, Hitems. reflexivity.
Qed.


(** Claim C3: every item of the de-duplicated list gets one PUT, or two
    when the first is answered 401 or 403 (the retry with a refreshed
    token); an item counts as added exactly when its last status is 2xx;
    no status stops the loop, so the PUT log has one segment per item, in
    order; [skippedCount] is 0.  With five items where the third is
    answered 500, the run adds 4 and still calls the endpoint for items 4
    and 5. *)
Theorem cart_item_loop :
  (forall R l w u, Cart.db w = Some u ->
    let '(res, w') := Cart.addKrogerItemsToCart R l w in
    match res with
    | Cart.CartOk added skipped its =>
        skipped = 0%nat /\
        exists segs : list (Cart.item * list Z),
          map fst segs = Cart.prepare l /\
          Forall (fun seg => attempts_ok seg.2 = true) segs /\
          put_log (Cart.log w') = put_log (Cart.log w) ++ seg_log segs /\
          its = succeeded_segs segs /\ added = length its
    | Cart.CartNeedAuth _ => put_log (Cart.log w') = put_log (Cart.log w)
    | Cart.CartError _ => False
    end) /\
  (Cart.addKrogerItemsToCart remote_u3_fails five_items world0).1 =
    Cart.CartOk 4 0 [Cart.Item "u1" (JFin 1); Cart.Item "u2" (JFin 1);
                     Cart.Item "u4" (JFin 1); Cart.Item "u5" (JFin 1)] /\
  put_log (Cart.log (Cart.addKrogerItemsToCart remote_u3_fails five_items world0).2) =
    [("u1", 200%Z); ("u2", 200%Z); ("u3", 500%Z); ("u4", 200%Z); ("u5", 200%Z)].
Proof.
  split; [exact add_run_spec|].
  split; vm_compute; reflexivity.
Qed.

Lemma cart_item_loop_witness :
  Cart.db world0 = Some tok_user /\
  let '(res, w') := Cart.addKrogerItemsToCart remote_u3_fails five_items world0 in
  match res with
  | Cart.CartOk added skipped its =>
      skipped = 0%nat /\
      exists segs : list (Cart.item * list Z),
        map fst segs = Cart.prepare five_items /\
        Forall (fun seg => attempts_ok seg.2 = true) segs /\
        put_log (Cart.log w') = put_log (Cart.log world0) ++ seg_log segs /\
        its = succeeded_segs segs /\ added = length its
  | Cart.CartNeedAuth _ => put_log (Cart.log w') = put_log (Cart.log world0)
  | Cart.CartError _ => False
  end.
Proof.
  split; [reflexivity|].
  exact (proj1 cart_item_loop remote_u3_fails five_items world0 tok_user eq_refl).
Defined.

Lemma sublist_map_ {A B} (f : A -> B) (l1 l2 : list A) :
  l1 `sublist_of` l2 -> map f l1 `sublist_of` map f l2.
Proof.
  induction 1; cbn; [apply sublist_nil|apply sublist_skip|apply sublist_cons]; auto.
Qed.

Lemma succeeded_segs_sublist segs : succeeded_segs segs `sublist_of` map fst segs.
Proof.
  induction segs as [|seg segs IH]; [apply sublist_nil|].
  unfold succeeded_segs in *. simpl List.filter.
  destruct (Cart.is_2xx (final_status seg.2)); cbn;
    [apply sublist_skip|apply sublist_cons]; exact IH.
Qed.

Lemma dedup_upc_sublist seen l : Cart.dedup_upc seen l `sublist_of` l.
Proof.
  revert seen. induction l as [|it l IH]; intros seen; cbn; [apply sublist_nil|].
  case_bool_decide; [apply sublist_cons|apply sublist_skip]; apply IH.
Qed.

Lemma dedup_upc_NoDup seen l :
  NoDup (map Cart.it_upc (Cart.dedup_upc seen l)) /\
  Forall (fun it => Cart.it_upc it ∉ seen) (Cart.dedup_upc seen l).
Proof.
  revert seen. induction l as [|x l IH]; intros seen; cbn.
  - split; constructor.
  - case_bool_decide as Hx; [apply IH|].
    destruct (IH (Cart.it_upc x :: seen)) as [Hnd Hall]. split.
    + cbn. constructor; [|exact Hnd].
      intros Hin. apply list_elem_of_In, in_map_iff in Hin as [y [Hy Hin]].
      rewrite Forall_forall in Hall. apply (Hall y); [by apply list_elem_of_In|]. rewrite Hy. left.
    + constructor; [exact Hx|].
      eapply Forall_impl; [exact Hall|].
      intros y Hy Hys. apply Hy. apply elem_of_cons. right. exact Hys.
Qed.

Lemma dedup_upc_complete seen l it :
  it ∈ l -> Cart.it_upc it ∈ seen \/
            exists it', it' ∈ Cart.dedup_upc seen l /\ Cart.it_upc it' = Cart.it_upc it.
Proof.
  revert seen. induction l as [|x l IH]; intros seen Hin; [inversion Hin|].
  cbn. apply elem_of_cons in Hin as [->|Hin].
  - case_bool_decide as Hx; [left; exact Hx|].
    right. exists x. split; [left|reflexivity].
  - case_bool_decide as Hx.
    + exact (IH seen Hin).
    + destruct (IH (Cart.it_upc x :: seen) Hin) as [Hs|[it' [Hin' Heq]]].
      * apply elem_of_cons in Hs as [Hs|Hs]; [|left; exact Hs].
        right. exists x. split; [left|symmetry; exact Hs].
      * right. exists it'. split; [right; exact Hin'|exact Heq].
Qed.

Lemma dedup_upc_first seen l it :
  it ∈ Cart.dedup_upc seen l ->
  exists i, l !! i = Some it /\
    forall j it', (j < i)%nat -> l !! j = Some it' -> Cart.it_upc it' <> Cart.it_upc it.
Proof.
  assert (Gen : it ∈ Cart.dedup_upc seen l ->
    (Cart.it_upc it ∉ seen) /\
    (exists i, l !! i = Some it /\
      forall j it', (j < i)%nat -> l !! j = Some it' -> Cart.it_upc it' <> Cart.it_upc it)).
  2: { intros H. apply Gen, H. }
  revert seen. induction l as [|x l IH]; intros seen Hin; [inversion Hin|].
  cbn in Hin. case_bool_decide as Hx.
  - destruct (IH seen Hin) as [Hns [i [Hi Hbefore]]].
    split; [exact Hns|]. exists (S i). split; [exact Hi|].
    intros [|j] it' Hj Hj'.
    + injection Hj' as <-. intros Heq. apply Hns. rewrite <- Heq. exact Hx.
    + apply (Hbefore j); [lia|exact Hj'].
  - apply elem_of_cons in Hin as [->|Hin].
    + split; [exact Hx|]. exists 0%nat. split; [reflexivity|]. intros j it' Hj. lia.
    + destruct (IH _ Hin) as [Hns [i [Hi Hbefore]]].
      split; [intros Hs; apply Hns; right; exact Hs|].
      exists (S i). split; [exact Hi|].
      intros [|j] it' Hj Hj'.
      * injection Hj' as <-. intros Heq. apply Hns. rewrite Heq. left.
      * apply (Hbefore j); [lia|exact Hj'].
Qed.

Lemma foldl_snap_ins_notin m its k :
  k ∉ map Cart.it_upc its -> foldl snap_ins m its !! k = m !! k.
Proof.
  revert m. induction its as [|it its IH]; intros m Hk; [reflexivity|].
  cbn in *. rewrite IH.
  - unfold snap_ins. apply lookup_insert_ne. intros Heq. apply Hk. rewrite <- Heq. left.
  - intros Hin. apply Hk. right. exact Hin.
Qed.

Lemma foldl_snap_ins_keys m its k :
  is_Some (foldl snap_ins m its !! k) <->
  is_Some (m !! k) \/ exists it, it ∈ its /\ Cart.it_upc it = k.
Proof.
  revert m. induction its as [|it its IH]; intros m; cbn.
  - split; [auto|]. intros [H|[it [Hin _]]]; [exact H|inversion Hin].
  - rewrite IH. unfold snap_ins. split.
    + intros [H|[it' [Hin Heq]]].
      * destruct (decide (Cart.it_upc it = k)) as [<-|Hne].
        -- right. exists it. split; [left|reflexivity].
        -- left. rewrite lookup_insert_ne in H; auto.
      * right. exists it'. split; [right; exact Hin|exact Heq].
    + intros [H|[it' [Hin Heq]]].
      * left. destruct (decide (Cart.it_upc it = k)) as [<-|Hne].
        -- rewrite lookup_insert_eq. eauto.
        -- rewrite lookup_insert_ne; auto.
      * apply elem_of_cons in Hin as [->|Hin].
        -- left. subst k. rewrite lookup_insert_eq. eauto.
        -- right. exists it'. auto.
Qed.

Lemma foldl_snap_ins_value m its it :
  NoDup (map Cart.it_upc its) -> it ∈ its ->
  foldl snap_ins m its !! Cart.it_upc it = Some (Cart.it_quantity it).
Proof.
  revert m. induction its as [|x its IH]; intros m Hnd Hin; [inversion Hin|].
  cbn in *. apply NoDup_cons in Hnd as [Hx Hnd].
  apply elem_of_cons in Hin as [->|Hin].
  - rewrite foldl_snap_ins_notin by exact Hx. unfold snap_ins. apply lookup_insert_eq.
  - apply IH; assumption.
Qed.

Lemma add_snapshot R l w u :
  Cart.db w = Some u ->
  let '(res, w') := Cart.addKrogerItemsToCart R l w in
  (exists u', Cart.db w' = Some u' /\
     Cart.cartSnapshot u' = foldl snap_ins (Cart.cartSnapshot u) (succeeded res)) /\
  succeeded res `sublist_of` Cart.prepare l.
Proof.
  intros Hu.
  unfold Cart.addKrogerItemsToCart, Cart.find_user, Cart.save. unfold_St. cbn.
  rewrite Hu.
  destruct (Cart.prepare l) as [|it0 its0] eqn:Ep; cbn -[Cart.St_fold].
  { split; [eexists; split; reflexivity|apply sublist_nil]. }
  set (w1 := {| Cart.db := Some u; Cart.now := Cart.now w;
                Cart.log := Cart.log w ++ [Cart.CFindUser] |}).
  pose proof (getValidUserToken_spec R u w1) as G.
  destruct (Cart.getValidUserToken R u w1) as [[tok u1] w2].
  destruct G as [_ [Hdb Hsnap]]. cbn in Hsnap.
  assert (Hdb2 : exists u', Cart.db w2 = Some u' /\ Cart.cartSnapshot u' = Cart.cartSnapshot u).
  { destruct Hdb as [Hdb|Hdb]; rewrite Hdb; eexists; split; eauto. }
  destruct tok as [[|c s]|]; cbn -[Cart.St_fold];
    try (split; [exact Hdb2|apply sublist_nil_l]).
  pose proof (loop_spec R (it0 :: its0) (Cart.LoopState (String c s) u1 0 []) w2) as L.
  destruct (Cart.St_fold (Cart.process_item R) (Cart.LoopState (String c s) u1 0 [])
              (it0 :: its0) w2) as [ls w3].
  destruct L as [segs [Hfst [_ [_ [Hitems [_ Hsnap3]]]]]].
  cbn in *. split.
  - eexists. split; [reflexivity|]. rewrite Hsnap3, Hitems, Hsnap. reflexivity.
  - rewrite Hitems, <- Hfst. apply succeeded_segs_sublist.
Qed.

(** Claim C7: an auto-add run clears the user's snapshot, then sets the
    entry of each added UPC to its quantity; when the run ends, the stored
    snapshot is exactly the items added by this run (keys and quantities),
    with no entry left from an earlier run. *)
Theorem auto_add_snapshot_last_run_wins R plan w u (Hu : Cart.db w = Some u) :
  let '(res, w') := Cart.autoAddRun R plan w in
  exists u', Cart.db w' = Some u' /\
    Cart.cartSnapshot u' = snapshot_of (succeeded res) /\
    (forall k, is_Some (Cart.cartSnapshot u' !! k) <->
               exists it, it ∈ succeeded res /\ Cart.it_upc it = k) /\
    (forall it, it ∈ succeeded res ->
                Cart.cartSnapshot u' !! Cart.it_upc it = Some (Cart.it_quantity it)).
Proof.
  unfold Cart.autoAddRun, Cart.clearCartSnapshotForUser, Cart.find_user, Cart.save.
  unfold_St. cbn -[Cart.addKrogerItemsToCart]. rewrite Hu. cbn -[Cart.addKrogerItemsToCart].
  set (u0 := {| Cart.accessToken := Cart.accessToken u; Cart.expiresAt := Cart.expiresAt u;
                Cart.refreshToken := Cart.refreshToken u; Cart.cartSnapshot := ∅ |}).
  set (w1 := {| Cart.db := Some u0; Cart.now := Cart.now w;
                Cart.log := (Cart.log w ++ [Cart.CFindUser]) ++ [Cart.CSave] |}).
  pose proof (add_snapshot R plan w1 u0 eq_refl) as A.
  destruct (Cart.addKrogerItemsToCart R plan w1) as [res w2].
  destruct A as [[u' [Hdb Hsnap]] Hsub].
  exists u'. split; [exact Hdb|].
  assert (Hnd : NoDup (map Cart.it_upc (succeeded res))).
  { apply (sublist_NoDup _ (map Cart.it_upc (Cart.prepare plan))).
    - apply dedup_upc_NoDup.
    - exact (sublist_map_ Cart.it_upc _ _ Hsub). }
  rewrite Hsnap. split; [reflexivity|]. split.
  - intros k. rewrite foldl_snap_ins_keys. split.
    + intros [[x Hx]|H]; [|exact H]. cbn in Hx. rewrite lookup_empty in Hx. discriminate.
    + intros H. right. exact H.
  - intros it Hin. apply foldl_snap_ins_value; assumption.
Qed.

Lemma auto_add_snapshot_last_run_wins_witness :
  Cart.db world0 = Some tok_user /\
  let '(res, w') := Cart.autoAddRun remote_u3_fails five_items world0 in
  exists u', Cart.db w' = Some u' /\
    Cart.cartSnapshot u' = snapshot_of (succeeded res) /\
    (forall k, is_Some (Cart.cartSnapshot u' !! k) <->
               exists it, it ∈ succeeded res /\ Cart.it_upc it = k) /\
    (forall it, it ∈ succeeded res ->
                Cart.cartSnapshot u' !! Cart.it_upc it = Some (Cart.it_quantity it)).
Proof.
  split; [reflexivity|].
  exact (auto_add_snapshot_last_run_wins remote_u3_fails five_items world0 tok_user eq_refl).
Defined.

Lemma normalize_items_nonempty l it :
  it ∈ Cart.normalize_items l -> Cart.it_upc it <> "".
Proof.
  unfold Cart.normalize_items. intros Hin.
  apply list_elem_of_filter in Hin as [Hne _].
  destruct (String.eqb (Cart.it_upc it) "") eqn:E; [contradiction|].
  apply String.eqb_neq, E.
Qed.

Lemma normalize_items_keeps l x :
  x ∈ l -> trim_str (default "" (Cart.ci_upc x)) <> "" ->
  exists it, it ∈ Cart.normalize_items l /\ Cart.it_upc it = trim_str (default "" (Cart.ci_upc x)).
Proof.
  intros Hin Hne. unfold Cart.normalize_items.
  exists (Cart.Item (trim_str (default "" (Cart.ci_upc x))) (Cart.quantity_of (Cart.ci_quantity x))).
  split; [|reflexivity].
  apply list_elem_of_filter. split.
  - cbn. apply String.eqb_neq in Hne. rewrite Hne. exact I.
  - apply list_elem_of_In, in_map_iff. eexists. split; [reflexivity|].
    by apply list_elem_of_In.
Qed.

(** Claim C9: before any token check or remote call, the items are
    normalised, those with an empty or missing (trimmed) UPC are dropped and
    the rest de-duplicated by UPC keeping the first occurrence in order; the
    PUT calls of the run follow that list, so a UPC is attempted in at most
    one item; an empty list gives [{ok: true, addedCount: 0, skippedCount: 0}]
    after the user lookup alone, with no token request and no cart call. *)
Theorem cart_input_filter_dedup R l w u (Hu : Cart.db w = Some u) :
  Forall (fun it => Cart.it_upc it <> "") (Cart.prepare l) /\
  Cart.prepare l `sublist_of` Cart.normalize_items l /\
  NoDup (map Cart.it_upc (Cart.prepare l)) /\
  (forall x, x ∈ l -> trim_str (default "" (Cart.ci_upc x)) <> "" ->
     exists it, it ∈ Cart.prepare l /\
                Cart.it_upc it = trim_str (default "" (Cart.ci_upc x))) /\
  (forall it, it ∈ Cart.prepare l ->
     exists i, Cart.normalize_items l !! i = Some it /\
       forall j it', (j < i)%nat -> Cart.normalize_items l !! j = Some it' ->
                     Cart.it_upc it' <> Cart.it_upc it) /\
  (let '(res, w') := Cart.addKrogerItemsToCart R l w in
   exists segs : list (Cart.item * list Z),
     map fst segs `prefix_of` Cart.prepare l /\
     put_log (Cart.log w') = put_log (Cart.log w) ++ seg_log segs) /\
  (Cart.prepare l = [] ->
   Cart.addKrogerItemsToCart R l w =
     (Cart.CartOk 0 0 [],
      {| Cart.db := Cart.db w; Cart.now := Cart.now w;
         Cart.log := Cart.log w ++ [Cart.CFindUser] |})).
Proof.
  pose proof (dedup_upc_sublist [] (Cart.normalize_items l)) as Hsub.
  split.
  { apply Forall_forall. intros it Hin.
    apply (normalize_items_nonempty l).
    eapply elem_of_sublist; [exact Hin|exact Hsub]. }
  split; [exact Hsub|].
  split; [apply dedup_upc_NoDup|].
  split.
  { intros x Hx Hne.
    destruct (normalize_items_keeps l x Hx Hne) as [it [Hin Heq]].
    destruct (dedup_upc_complete [] _ it Hin) as [Hs|[it' [Hin' Heq']]];
      [inversion Hs|].
    exists it'. split; [exact Hin'|]. rewrite Heq'. exact Heq. }
  split; [intros it Hin; exact (dedup_upc_first [] _ it Hin)|].
  split.
  { pose proof (add_run_spec R l w u Hu) as A.
    destruct (Cart.addKrogerItemsToCart R l w) as [res w'].
    destruct res as [e|p|added skipped its]; [contradiction| |].
    - exists []. split; [apply prefix_nil|]. cbn. rewrite app_nil_r. exact A.
    - destruct A as [_ [segs [Hfst [_ [Hput _]]]]].
      exists segs. rewrite Hfst. split; [reflexivity|exact Hput]. }
  intros Hp.
  unfold Cart.addKrogerItemsToCart, Cart.find_user. unfold_St. cbn.
  rewrite Hu, Hp. reflexivity.
Qed.

Lemma cart_input_filter_dedup_witness :
  Cart.db world0 = Some tok_user /\
  Cart.prepare messy_items = [Cart.Item "u1" (JFin 2); Cart.Item "u2" (JFin 1)] /\
  Forall (fun it => Cart.it_upc it <> "") (Cart.prepare messy_items).
Proof.
  split; [reflexivity|]. split; [vm_compute; reflexivity|].
  exact (proj1 (cart_input_filter_dedup remote_u3_fails messy_items world0 tok_user eq_refl)).
Defined.

(* ================================================================== *)
(** * Properties of the remaining code *)

Import Text.

Lemma dedup_l_NoDup seen l : List.NoDup (dedup_l seen l) /\ Forall (fun x => x ∉ seen) (dedup_l seen l).
Proof.
  revert seen. induction l as [|x l IH]; intros seen; cbn.
  - split; constructor.
  - case_bool_decide as Hx; [apply IH|].
    destruct (IH (x :: seen)) as [Hnd Hall]. split.
    + constructor; [|exact Hnd].
      intros Hin. rewrite Forall_forall in Hall.
      apply (Hall x); [by apply list_elem_of_In|]. left.
    + constructor; [exact Hx|].
      eapply Forall_impl; [exact Hall|].
      intros y Hy Hys. apply Hy. right. exact Hys.
Qed.

Lemma tokenSet_NoDup s : List.NoDup (tokenSet s).
Proof. apply dedup_l_NoDup. Qed.

Definition inter (A B : list (list ascii)) : nat :=
  List.length (List.filter (fun x => bool_decide (x ∈ B)) A).

Lemma inter_le_r A B : List.NoDup A -> (inter A B <= List.length B)%nat.
Proof.
  intros HA. unfold inter. apply NoDup_incl_length.
  - apply List.NoDup_filter, HA.
  - intros x Hx. apply List.filter_In in Hx as [_ Hx].
    apply bool_decide_eq_true in Hx. by apply list_elem_of_In.
Qed.

Lemma inter_le_l A B : (inter A B <= List.length A)%nat.
Proof. unfold inter. apply List.filter_length_le. Qed.

Lemma inter_comm A B : List.NoDup A -> List.NoDup B -> inter A B = inter B A.
Proof.
  intros HA HB. unfold inter.
  assert (H : forall X Y : list (list ascii), List.NoDup X ->
            (List.length (List.filter (fun x => bool_decide (x ∈ Y)) X) <=
             List.length (List.filter (fun x => bool_decide (x ∈ X)) Y))%nat).
  { intros X Y HX. apply NoDup_incl_length.
    - apply List.NoDup_filter, HX.
    - intros x Hx. apply List.filter_In in Hx as [Hx HxY].
      apply bool_decide_eq_true in HxY. apply List.filter_In. split.
      + by apply list_elem_of_In.
      + apply bool_decide_eq_true. by apply list_elem_of_In. }
  pose proof (H A B HA). pose proof (H B A HB). lia.
Qed.

Lemma inter_self A : inter A A = List.length A.
Proof.
  unfold inter.
  assert (G : forall l, (forall x, x ∈ l -> x ∈ A) ->
            List.filter (fun x => bool_decide (x ∈ A)) l = l).
  { induction l as [|x l IH]; intros Hl; [reflexivity|]. cbn.
    rewrite bool_decide_true by (apply Hl; left). rewrite IH; [reflexivity|].
    intros y Hy. apply Hl. right. exact Hy. }
  rewrite G; auto.
Qed.

Lemma Q_of_nat_pos n : (0 < n)%nat -> (0 < inject_Z (Z.of_nat n))%Q.
Proof. intros H. unfold Qlt, inject_Z. simpl. lia. Qed.

Local Open Scope Q_scope.
(** tokenOverlap: a ratio in [0, 1], symmetric in its arguments, 0 when the
    first text has no token, and 1 for a text with tokens against itself. *)
Theorem tokenOverlap_bounds_symmetric (a b : string) :
  0 <= tokenOverlap a b <= 1 /\
  tokenOverlap a b = tokenOverlap b a /\
  (tokenSet a = [] -> tokenOverlap a b = 0) /\
  (tokenSet a <> [] -> tokenOverlap a a == 1).
Proof.
  pose proof (tokenSet_NoDup a) as HA. pose proof (tokenSet_NoDup b) as HB.
  unfold tokenOverlap. fold (inter (tokenSet a) (tokenSet b)).
  fold (inter (tokenSet b) (tokenSet a)). fold (inter (tokenSet a) (tokenSet a)).
  split; [|split; [|split]].
  - destruct (Nat.eqb (List.length (tokenSet a)) 0 || Nat.eqb (List.length (tokenSet b)) 0) eqn:E.
    + split; discriminate.
    + apply orb_false_iff in E as [E1 E2]. apply Nat.eqb_neq in E1, E2.
      pose proof (inter_le_l (tokenSet a) (tokenSet b)).
      pose proof (inter_le_r (tokenSet a) (tokenSet b) HA).
      set (m := Nat.max 1 (Nat.min (List.length (tokenSet a)) (List.length (tokenSet b)))).
      assert (Hm : (0 < m)%nat) by lia.
      split.
      * apply Qle_shift_div_l; [by apply Q_of_nat_pos|].
        rewrite Qmult_0_l. unfold Qle, inject_Z. simpl. lia.
      * apply Qle_shift_div_r; [by apply Q_of_nat_pos|].
        rewrite Qmult_1_l. unfold Qle, inject_Z. simpl. lia.
  - rewrite (inter_comm _ _ HA HB), orb_comm, Nat.min_comm. reflexivity.
  - intros ->. reflexivity.
  - intros Hne. destruct (tokenSet a) as [|x l] eqn:E; [congruence|].
    rewrite inter_self. cbn -[inter]. rewrite Nat.min_id.
    replace (Nat.max 1 (S (List.length l))) with (S (List.length l)) by lia.
    apply Qmult_inv_r. intros H.
    pose proof (Q_of_nat_pos (S (List.length l)) ltac:(lia)) as P. rewrite H in P.
    exact (Qlt_irrefl _ P).
Qed.

Lemma covered_cons_rest item rest ing title :
  looksLikeCovered rest ing title = true -> looksLikeCovered (item :: rest) ing title = true.
Proof.
  intros H. cbn.
  repeat match goal with |- context [if ?b then _ else _] => destruct b end; auto.
Qed.

Lemma covered_cons_hit item rest ing title :
  normText_l (list_ascii_of_string item) <> [] ->
  includes (normText_l (list_ascii_of_string ing)) (normText_l (list_ascii_of_string item))
  || includes (normText_l (list_ascii_of_string item)) (normText_l (list_ascii_of_string ing)) = true ->
  looksLikeCovered (item :: rest) ing title = true.
Proof.
  intros Hne Hinc. cbn. rewrite bool_decide_false by exact Hne. rewrite Hinc. reflexivity.
Qed.

Lemma includes_nil s : includes s [] = true.
Proof. destruct s; reflexivity. Qed.

(** looksLikeCovered: false for an empty fridge list; true only when some
    fridge item normalizes to a non-empty text; true as soon as a non-empty
    normalized item is a substring of the normalized ingredient, and for every
    such item when the ingredient normalizes to the empty text. *)
Theorem looksLikeCovered_edges (fridge : list string) (ing title : string) :
  looksLikeCovered [] ing title = false /\
  (looksLikeCovered fridge ing title = true ->
   exists item, item ∈ fridge /\ normText_l (list_ascii_of_string item) <> []) /\
  (forall item, item ∈ fridge -> normText_l (list_ascii_of_string item) <> [] ->
     includes (normText_l (list_ascii_of_string ing)) (normText_l (list_ascii_of_string item)) = true ->
     looksLikeCovered fridge ing title = true) /\
  (normText_l (list_ascii_of_string ing) = [] ->
   forall item, item ∈ fridge -> normText_l (list_ascii_of_string item) <> [] ->
     looksLikeCovered fridge ing title = true).
Proof.
  split; [reflexivity|]. split; [|split].
  - induction fridge as [|item rest IH]; [discriminate|]. cbn.
    case_bool_decide as Hb.
    + intros H. destruct (IH H) as [x [Hx Hn]]. exists x. split; [right; exact Hx|exact Hn].
    + intros _. exists item. split; [left|exact Hb].
  - intros item Hin Hne Hinc. induction fridge as [|x rest IH]; [inversion Hin|].
    apply elem_of_cons in Hin as [->|Hin].
    + apply covered_cons_hit; [exact Hne|]. rewrite Hinc. reflexivity.
    + apply covered_cons_rest, IH, Hin.
  - intros Hing item Hin Hne. induction fridge as [|x rest IH]; [inversion Hin|].
    apply elem_of_cons in Hin as [->|Hin].
    + apply covered_cons_hit; [exact Hne|]. rewrite Hing, includes_nil, orb_true_r. reflexivity.
    + apply covered_cons_rest, IH, Hin.
Qed.

(** ** normText is idempotent *)
Import Chars.

















(** ** pickBestImage *)
Module ImagesProofs.
Import Images.
Local Open Scope Z_scope.

Lemma ins_elem x l y : y ∈ ins x l -> y = x \/ y ∈ l.
Proof.
  induction l as [|z l IH]; cbn [ins].
  - intros H. apply list_elem_of_singleton in H. left. exact H.
  - destruct (rank x <=? rank z).
    + intros H. apply elem_of_cons in H as [H|H]; [left; exact H|right; exact H].
    + intros H. apply elem_of_cons in H as [->|H].
      * right. apply elem_of_cons. left. reflexivity.
      * destruct (IH H) as [E|E]; [left; exact E|right; apply elem_of_cons; right; exact E].
Qed.

Lemma isort_elem l y : y ∈ isort l -> y ∈ l.
Proof.
  induction l as [|x l IH]; cbn; intros H.
  - exact H.
  - destruct (ins_elem _ _ _ H) as [->|E].
    + apply elem_of_cons. left. reflexivity.
    + apply elem_of_cons. right. exact (IH E).
Qed.

Lemma isort_head pre s post :
  Forall (fun t => rank s < rank t) pre ->
  Forall (fun t => rank s <= rank t) post ->
  exists rest, isort (pre ++ s :: post) = s :: rest.
Proof.
  induction pre as [|x pre IH]; intros Hpre Hpost; cbn [app isort].
  - destruct (isort post) as [|y r] eqn:E; cbn [ins]; [exists []; reflexivity|].
    assert (Hy : y ∈ post) by (apply isort_elem; rewrite E; apply elem_of_cons; left; reflexivity).
    rewrite Forall_forall in Hpost. specialize (Hpost y Hy).
    assert ((rank s <=? rank y) = true) as -> by lia. exists (y :: r). reflexivity.
  - apply Forall_cons in Hpre as [Hx Hpre]. destruct (IH Hpre Hpost) as [rest ->].
    cbn [ins]. assert ((rank x <=? rank s) = false) as -> by lia. exists (ins x rest). reflexivity.
Qed.

End ImagesProofs.
Import ImagesProofs.

(** pickBestImage: the url of the earliest size entry of minimal rank. *)
Theorem pickBestImage_first_min_rank (imgs : list Images.image) pre s post :
  Images.all_sizes imgs = pre ++ s :: post ->
  Forall (fun t => Images.rank s < Images.rank t)%Z pre ->
  Forall (fun t => Images.rank s <= Images.rank t)%Z post ->
  Images.pickBestImage imgs = Images.sz_url s.
Proof.
  intros E Hpre Hpost. unfold Images.pickBestImage. rewrite E.
  destruct (isort_head pre s post Hpre Hpost) as [rest ->].
  destruct pre; reflexivity.
Qed.

(** ** buildFinalPayload, budget mode *)
Module PayloadProofs.
Import Offers Payload.

Lemma elem_of_map_ {X Y} (f : X -> Y) l y : y ∈ map f l <-> exists x, y = f x /\ x ∈ l.
Proof.
  rewrite list_elem_of_In, in_map_iff. split.
  - intros [x [<- H]]. exists x. split; [reflexivity|apply list_elem_of_In; exact H].
  - intros [x [-> H]]. exists x. split; [reflexivity|apply list_elem_of_In; exact H].
Qed.

Section Obj.
Context {A : Type}.

Definition keys_ok (o : jsobj A) : Prop := NoDup (map fst o).

Lemma set_own_elem (o : jsobj A) k v k' v' :
  keys_ok o ->
  (k', v') ∈ set_own o k v <-> (k' = k /\ v' = v) \/ ((k', v') ∈ o /\ k' <> k).
Proof.
  unfold keys_ok. induction o as [|[k0 v0] o IH]; intros Hnd; cbn.
  - rewrite list_elem_of_singleton. split.
    + intros H. injection H as -> ->. left. split; reflexivity.
    + intros [[-> ->]|[H _]]; [reflexivity|apply elem_of_nil in H as []].
  - cbn in Hnd. apply NoDup_cons in Hnd as [Hn Hnd].
    destruct (String.eqb k k0) eqn:E.
    + apply String.eqb_eq in E. subst k0. rewrite !elem_of_cons. split.
      * intros [H|H].
        -- injection H as -> ->. left. split; reflexivity.
        -- right. split; [right; exact H|]. intros ->. apply Hn.
           apply elem_of_map_. exists (k, v'). split; [reflexivity|exact H].
      * intros [[-> ->]|[[H|H] Hne]]; [left; reflexivity| |right; exact H].
        injection H as -> ->. contradiction.
    + apply String.eqb_neq in E. rewrite !elem_of_cons, IH by exact Hnd. split.
      * intros [H|[H|H]].
        -- right. split; [left; exact H|]. injection H as -> ->. congruence.
        -- left. exact H.
        -- right. destruct H as [H1 H2]. split; [right; exact H1|exact H2].
      * intros [H|[[H|H] Hne]]; [right; left; exact H|left; exact H|right; right; split; assumption].
Qed.

Lemma set_own_keys (o : jsobj A) k v :
  keys_ok o -> keys_ok (set_own o k v).
Proof.
  unfold keys_ok. induction o as [|[k0 v0] o IH]; intros Hnd; cbn.
  - constructor; [apply not_elem_of_nil|constructor].
  - cbn in Hnd. apply NoDup_cons in Hnd as [Hn Hnd].
    destruct (String.eqb k k0) eqn:E; cbn.
    + apply String.eqb_eq in E. subst k0. constructor; assumption.
    + apply String.eqb_neq in E. constructor; [|exact (IH Hnd)].
      intros Hin. apply elem_of_map_ in Hin as [[k1 v1] [Hk Hin]]. cbn in Hk. subst k1.
      apply set_own_elem in Hin; [|exact Hnd]. destruct Hin as [[-> _]|[Hin _]]; [congruence|].
      apply Hn. apply elem_of_map_. exists (k0, v1). split; [reflexivity|exact Hin].
Qed.

Definition sel_upd (sel : string -> option A) (o : jsobj A) (ing : string) : jsobj A :=
  match sel ing with Some v => obj_set o ing v | None => o end.

Definition sel_inv (sel : string -> option A) (done : list string) (o : jsobj A) : Prop :=
  keys_ok o /\
  forall k v, (k, v) ∈ o <-> k ∈ done /\ k <> "__proto__"%string /\ sel k = Some v.

Lemma sel_fold sel done o ings :
  sel_inv sel done o -> sel_inv sel (done ++ ings) (foldl (sel_upd sel) o ings).
Proof.
  revert done o. induction ings as [|ing ings IH]; intros done o [Hk Hm]; cbn.
  - rewrite app_nil_r. split; assumption.
  - replace (done ++ ing :: ings) with ((done ++ [ing]) ++ ings) by (rewrite <- app_assoc; reflexivity).
    apply IH. unfold sel_upd, obj_set.
    destruct (sel ing) as [v0|] eqn:Es; [destruct (String.eqb ing "__proto__") eqn:Ep|].
    + apply String.eqb_eq in Ep. split; [exact Hk|]. intros k v. rewrite Hm, elem_of_app, list_elem_of_singleton.
      split; [intros [H1 H2]; split; [left; exact H1|exact H2]|].
      intros [[H1| ->] [H2 H3]]; [split; [exact H1|split; assumption]|contradiction].
    + apply String.eqb_neq in Ep. split; [apply set_own_keys; exact Hk|].
      intros k v. rewrite set_own_elem by exact Hk. rewrite Hm, elem_of_app, list_elem_of_singleton.
      split.
      * intros [[-> ->]|[[H1 [H2 H3]] H4]]; [split; [right; reflexivity|split; assumption]|].
        split; [left; exact H1|split; assumption].
      * intros [[H1| ->] [H2 H3]].
        -- destruct (decide (k = ing)) as [->|Hne]; [left; split; [reflexivity|congruence]|].
           right. split; [split; [exact H1|split; assumption]|exact Hne].
        -- left. split; [reflexivity|congruence].
    + split; [exact Hk|]. intros k v. rewrite Hm, elem_of_app, list_elem_of_singleton.
      split; [intros [H1 H2]; split; [left; exact H1|exact H2]|].
      intros [[H1| ->] [H2 H3]]; [split; [exact H1|split; assumption]|congruence].
Qed.

Lemma obj_entries_perm (o : jsobj A) : obj_entries o ≡ₚ o.
Proof.
  unfold obj_entries. rewrite merge_sort_Permutation. apply filter_app_complement.
Qed.

Lemma obj_keys_spec sel done o :
  sel_inv sel done o ->
  NoDup (obj_keys o) /\
  (forall k, k ∈ obj_keys o <-> k ∈ done /\ k <> "__proto__"%string /\ is_Some (sel k)).
Proof.
  intros [Hk Hm]. unfold obj_keys.
  pose proof (obj_entries_perm o) as Hp.
  split.
  - unfold keys_ok in Hk. rewrite Hp. exact Hk.
  - intros k. rewrite Hp, elem_of_map_. split.
    + intros [[k' v] [-> Hin]]. apply Hm in Hin as [H1 [H2 H3]]. cbn.
      split; [exact H1|split; [exact H2|rewrite H3; eexists; reflexivity]].
    + intros [H1 [H2 [v Hv]]]. exists (k, v). split; [reflexivity|]. apply Hm. auto.
Qed.

End Obj.

Lemma obj_values_spec {B} (sel : string -> option (list B)) done o :
  sel_inv sel done o ->
  forall q, q ∈ concat (obj_values o) <->
            exists k v, k ∈ obj_keys o /\ sel k = Some v /\ q ∈ v.
Proof.
  intros [Hk Hm] q. unfold obj_keys, obj_values.
  pose proof (obj_entries_perm o) as Hp.
  rewrite list_elem_of_In, in_concat. setoid_rewrite <- list_elem_of_In.
  setoid_rewrite elem_of_map_. split.
  - intros [v [[[k v'] [-> Hin]] Hq]]. cbn in Hq.
    exists k, v'. rewrite Hp in Hin. apply Hm in Hin as Hs. destruct Hs as [_ [_ Hs]].
    split; [|split; [exact Hs|exact Hq]].
    exists (k, v'). split; [reflexivity|rewrite Hp; exact Hin].
  - intros [k [v [[[k' v'] [Hk' Hin]] [Hs Hq]]]]. cbn in Hk'. subst k'. exists v. split; [|exact Hq].
    rewrite Hp in Hin. apply Hm in Hin as Hs'.
    destruct Hs' as [H1 [H2 H3]]. rewrite Hs in H3. injection H3 as ->.
    exists (k, v'). split; [reflexivity|rewrite Hp; exact Hin].
Qed.
End PayloadProofs.

Module PayloadMain.
Import Offers Payload PayloadProofs.

Definition win (kBy wBy : gmap string (list product)) (x : string) : winner :=
  d_winner (chooseWinnerForIngredient (arr_of kBy x) (arr_of wBy x)).

Definition selK kBy wBy (x : string) : option (list product) :=
  match win kBy wBy x with
  | WKroger => match arr_of kBy x with [] => None | _ :: _ => Some (arr_of kBy x) end
  | _ => None
  end.

Definition selW kBy wBy (x : string) : option (list product) :=
  match win kBy wBy x with
  | WWalmart => match arr_of wBy x with [] => None | _ :: _ => Some (arr_of wBy x) end
  | _ => None
  end.

Lemma fold_fk kBy wBy st ings :
  fk (foldl (budget_step kBy wBy) st ings) = foldl (sel_upd (selK kBy wBy)) (fk st) ings /\
  fw (foldl (budget_step kBy wBy) st ings) = foldl (sel_upd (selW kBy wBy)) (fw st) ings.
Proof.
  revert st. induction ings as [|ing ings IH]; intros st; cbn; [split; reflexivity|].
  rewrite !(proj1 (IH _)), !(proj2 (IH _)). cbn.
  unfold sel_upd, selK, selW, win.
  destruct (d_winner _); [destruct (arr_of kBy ing)|destruct (arr_of wBy ing)|]; split; reflexivity.
Qed.

Lemma best_nil : bestComparableOffer [] = None.
Proof. reflexivity. Qed.

Lemma win_nonempty kBy wBy x :
  (win kBy wBy x = WKroger -> arr_of kBy x <> []) /\
  (win kBy wBy x = WWalmart -> arr_of wBy x <> []).
Proof.
  unfold win, chooseWinnerForIngredient.
  split; intros Hw E; rewrite E, best_nil in Hw.
  - destruct (bestComparableOffer (arr_of wBy x)); discriminate.
  - destruct (bestComparableOffer (arr_of kBy x)); discriminate.
Qed.

Lemma selK_some kBy wBy x : is_Some (selK kBy wBy x) <-> win kBy wBy x = WKroger.
Proof.
  unfold selK. pose proof (proj1 (win_nonempty kBy wBy x)) as H.
  destruct (win kBy wBy x); [|split; [intros [? E]; discriminate|discriminate]..].
  destruct (arr_of kBy x); [|split; [reflexivity|eexists; reflexivity]].
  split; [intros [? E]; discriminate|]. intros Hw. exfalso. apply H; reflexivity.
Qed.

Lemma selW_some kBy wBy x : is_Some (selW kBy wBy x) <-> win kBy wBy x = WWalmart.
Proof.
  unfold selW. pose proof (proj2 (win_nonempty kBy wBy x)) as H.
  destruct (win kBy wBy x); [split; [intros [? E]; discriminate|discriminate]| |split; [intros [? E]; discriminate|discriminate]].
  destruct (arr_of wBy x); [|split; [reflexivity|eexists; reflexivity]].
  split; [intros [? E]; discriminate|]. intros Hw. exfalso. apply H; reflexivity.
Qed.

Lemma selK_val kBy wBy x v : selK kBy wBy x = Some v -> v = arr_of kBy x.
Proof. unfold selK. destruct (win _ _ _), (arr_of kBy x); congruence. Qed.

Lemma selW_val kBy wBy x v : selW kBy wBy x = Some v -> v = arr_of wBy x.
Proof. unfold selW. destruct (win _ _ _), (arr_of wBy x); congruence. Qed.

End PayloadMain.
Import PayloadProofs PayloadMain.

(** buildFinalPayload (budget mode): an ingredient is listed in
    [matchedInKroger] exactly when it is one of the ingredients, is not the key
    ["__proto__"], and the per-ingredient decision picks Kroger; the same for
    Walmart.  Both lists are duplicate-free and disjoint, and the product lists
    are exactly the products of the winning arrays. *)
Theorem budget_payload_matched (ings : list string) (kBy wBy : gmap string (list Offers.product)) :
  let p := Payload.buildFinalPayload_budget ings kBy wBy in
  let win x := Offers.d_winner (Offers.chooseWinnerForIngredient
                                  (Payload.arr_of kBy x) (Payload.arr_of wBy x)) in
  NoDup (Payload.bp_matchedInKroger p) /\ NoDup (Payload.bp_matchedInWalmart p) /\
  (forall x, x ∈ Payload.bp_matchedInKroger p <->
             x ∈ ings /\ x <> "__proto__"%string /\ win x = Offers.WKroger) /\
  (forall x, x ∈ Payload.bp_matchedInWalmart p <->
             x ∈ ings /\ x <> "__proto__"%string /\ win x = Offers.WWalmart) /\
  (forall x, ~ (x ∈ Payload.bp_matchedInKroger p /\ x ∈ Payload.bp_matchedInWalmart p)) /\
  (forall q, q ∈ Payload.bp_krogerProducts p <->
             exists x, x ∈ Payload.bp_matchedInKroger p /\ q ∈ Payload.arr_of kBy x) /\
  (forall q, q ∈ Payload.bp_walmartProducts p <->
             exists x, x ∈ Payload.bp_matchedInWalmart p /\ q ∈ Payload.arr_of wBy x).
Proof.
  cbn zeta. unfold Payload.buildFinalPayload_budget. cbn [Payload.bp_matchedInKroger
    Payload.bp_matchedInWalmart Payload.bp_krogerProducts Payload.bp_walmartProducts].
  destruct (fold_fk kBy wBy (Payload.BState [] [] []) ings) as [Ek Ew].
  rewrite Ek, Ew. cbn [Payload.fk Payload.fw].
  assert (I0 : forall sel : string -> option (list Offers.product), sel_inv sel [] []).
  { intros sel. split; [constructor|]. intros k v. split.
    - intros H. apply elem_of_nil in H as [].
    - intros [H _]. apply elem_of_nil in H as []. }
  pose proof (sel_fold _ _ _ ings (I0 (selK kBy wBy))) as IK.
  pose proof (sel_fold _ _ _ ings (I0 (selW kBy wBy))) as IW.
  cbn [app] in IK, IW.
  destruct (obj_keys_spec _ _ _ IK) as [NK MK].
  destruct (obj_keys_spec _ _ _ IW) as [NW MW].
  pose proof (obj_values_spec _ _ _ IK) as VK.
  pose proof (obj_values_spec _ _ _ IW) as VW.
  split; [exact NK|]. split; [exact NW|].
  split; [intros x; rewrite MK, selK_some; reflexivity|].
  split; [intros x; rewrite MW, selW_some; reflexivity|].
  split.
  { intros x [Hk Hw]. apply MK in Hk as [_ [_ Hk]]. apply MW in Hw as [_ [_ Hw]].
    apply selK_some in Hk. apply selW_some in Hw. unfold win in Hk, Hw. congruence. }
  split.
  - intros q. rewrite VK. split.
    + intros [k [v [Hk [Hs Hq]]]]. apply selK_val in Hs. subst v. exists k. split; assumption.
    + intros [k [Hk Hq]]. exists k, (Payload.arr_of kBy k). split; [exact Hk|split; [|exact Hq]].
      apply MK in Hk as [_ [_ [v Hv]]]. rewrite Hv. f_equal. exact (selK_val _ _ _ _ Hv).
  - intros q. rewrite VW. split.
    + intros [k [v [Hk [Hs Hq]]]]. apply selW_val in Hs. subst v. exists k. split; assumption.
    + intros [k [Hk Hq]]. exists k, (Payload.arr_of wBy k). split; [exact Hk|split; [|exact Hq]].
      apply MW in Hk as [_ [_ [v Hv]]]. rewrite Hv. f_equal. exact (selW_val _ _ _ _ Hv).
Qed.

Module TokenProofs.
Import Cart.
Local Open Scope Z_scope.

(** getValidUserToken: a token it hands out is the one stored in the returned
    credential, and asking again at the same instant returns the same answer
    with no call and no change, provided the token endpoint only issues
    non-empty tokens that live longer than the 60 s margin. *)
Theorem getValidUserToken_stable (R : remote) (u u' : kcred) (w w1 : world) (r : option string) :
  (forall rt a nr e, token_endpoint R rt = Some (a, nr, e) -> a <> ""%string /\ 60 < e) ->
  getValidUserToken R u w = ((r, u'), w1) ->
  r <> None ->
  r = accessToken u' /\ now w1 = now w /\ getValidUserToken R u' w1 = ((r, u'), w1).
Proof.
  intros HR E Hr. unfold getValidUserToken in *. unfold_St.
  unfold get_now in *. cbn in E.
  destruct (isTokenValid u (now w)) eqn:Hv.
  - injection E as <- <- <-. rewrite Hv. split; [reflexivity|split; reflexivity].
  - unfold refreshWithRefreshToken in E. unfold_St.
    destruct (refreshToken u) as [rt|]; [|injection E as <- _ _; contradiction].
    unfold record, save, get_now in E. cbn in E.
    destruct (token_endpoint R rt) as [[[acc nr] e]|] eqn:Et;
      [|injection E as <- _ _; contradiction].
    destruct (HR _ _ _ _ Et) as [Ha He].
    injection E as <- <- <-. cbn.
    assert (Hb : negb (acc =? "")%string && (60000 <? now w + e * 1000 - now w) = true).
    { apply andb_true_iff. split.
      - apply negb_true_iff, String.eqb_neq. exact Ha.
      - apply Z.ltb_lt. lia. }
    rewrite Hb. split; [reflexivity|split; reflexivity].
Qed.

End TokenProofs.

Module RetryProofs.
Import KrogerApi.

Lemma retry_loop_spec {A} (fn : nat -> outcome A) jitter retries baseMs k :
  forall i le, (i <= retries)%nat -> (i + k = S retries)%nat ->
  exists n, (i <= n <= retries)%nat /\
    (forall j, (i <= j < n)%nat -> exists e, fn j = Err e /\ retryable e = true) /\
    match fn n with Ok _ => True | Err e => retryable e = false \/ n = retries end /\
    retry_loop fn jitter retries baseMs i k le =
      (match fn n with Ok v => Returned v | Err e => Thrown (Some e) end,
       flat_map (fun j => [RCall j; RSleep (delay jitter baseMs j)]) (seq i (n - i)) ++ [RCall n]).
Proof.
  induction k as [|k IH]; intros i le Hi Hk; [lia|]. cbn [retry_loop].
  destruct (fn i) as [v|e] eqn:Ef.
  - exists i. split; [lia|]. split; [intros j Hj; lia|]. rewrite Ef.
    split; [exact I|]. rewrite Nat.sub_diag. reflexivity.
  - destruct ((i <? retries)%nat && retryable e) eqn:Ec.
    + apply andb_true_iff in Ec as [Hlt Hr]. apply Nat.ltb_lt in Hlt.
      destruct (IH (S i) (Some e) ltac:(lia) ltac:(lia)) as [n [Hn [Hb [Hl E]]]].
      rewrite E. exists n. split; [lia|]. split.
      * intros j Hj. destruct (decide (j = i)) as [->|Hne]; [exists e; split; assumption|].
        apply Hb. lia.
      * split; [exact Hl|]. replace (n - i)%nat with (S (n - S i)) by lia. reflexivity.
    + exists i. split; [lia|]. split; [intros j Hj; lia|]. rewrite Ef. split.
      * apply andb_false_iff in Ec as [Hlt|Hr]; [right; apply Nat.ltb_ge in Hlt; lia|left; exact Hr].
      * rewrite Nat.sub_diag. reflexivity.
Qed.

End RetryProofs.

(** withRetry: [fn] is called for attempts 0, 1, ..., n with n <= retries;
    every attempt before the last threw a retryable error and was followed by
    a wait of [baseMs * 2^i + jitter]; the last attempt either succeeded, threw
    a non-retryable error, or was attempt number [retries]; its outcome is
    what [withRetry] returns or throws. *)
Theorem withRetry_attempts {A} (fn : nat -> KrogerApi.outcome A) jitter retries baseMs :
  exists n, (n <= retries)%nat /\
    (forall j, (j < n)%nat -> exists e, fn j = KrogerApi.Err e /\ KrogerApi.retryable e = true) /\
    match fn n with
    | KrogerApi.Ok _ => True
    | KrogerApi.Err e => KrogerApi.retryable e = false \/ n = retries
    end /\
    KrogerApi.withRetry fn jitter retries baseMs =
      (match fn n with
       | KrogerApi.Ok v => KrogerApi.Returned v
       | KrogerApi.Err e => KrogerApi.Thrown (Some e)
       end,
       flat_map (fun j => [KrogerApi.RCall j; KrogerApi.RSleep (KrogerApi.delay jitter baseMs j)])
                (seq 0 n) ++ [KrogerApi.RCall n]).
Proof.
  destruct (RetryProofs.retry_loop_spec fn jitter retries baseMs (S retries) 0 None
              ltac:(lia) ltac:(lia)) as [n [Hn [Hb [Hl E]]]].
  exists n. split; [lia|]. split; [intros j Hj; apply Hb; lia|]. split; [exact Hl|].
  unfold KrogerApi.withRetry. rewrite E, Nat.sub_0_r. reflexivity.
Qed.

Module SearchProofs.
Import KrogerApi KrogerSearch.
Local Open Scope Z_scope.

Lemma redis_set_get {P} (key : string) (v : list P) ttl (w : sworld) d :
  0 <= d < ttl ->
  redis_get key {| cache := cache (redis_set key v ttl w); clock := clock (redis_set key v ttl w) + d;
                   api_calls := api_calls (redis_set key v ttl w) |} = Some v.
Proof.
  intros Hd. unfold redis_get, redis_set. cbn. rewrite lookup_insert_eq.
  assert ((clock w + d <? clock w + ttl) = true) as -> by lia. reflexivity.
Qed.

End SearchProofs.

(** searchProductsByTerm: after a call that reached the API and returned a
    list, any call within the next 10 minutes whose term has the same slug,
    with the same location and limit, returns that list from the cache and
    makes no API call. *)
Theorem search_cache_shared {P} (api api' : KrogerSearch.query -> KrogerApi.outcome (list P))
    (t1 t2 loc : string) (lim : N) (fb fb' : bool) (w w1 : KrogerSearch.sworld) (l : list P) (d : Z) :
  KrogerSearch.searchProductsByTerm api t1 loc lim fb w = (KrogerApi.Ok l, w1) ->
  KrogerSearch.api_calls w1 <> KrogerSearch.api_calls w ->
  KrogerSearch.slug t2 = KrogerSearch.slug t1 ->
  (0 <= d < 600)%Z ->
  let w2 := {| KrogerSearch.cache := KrogerSearch.cache w1;
               KrogerSearch.clock := (KrogerSearch.clock w1 + d)%Z;
               KrogerSearch.api_calls := KrogerSearch.api_calls w1 |} in
  KrogerSearch.searchProductsByTerm api' t2 loc lim fb' w2 = (KrogerApi.Ok l, w2).
Proof.
  intros E Hc Hs Hd w2. unfold KrogerSearch.searchProductsByTerm in *.
  assert (Hk : KrogerSearch.search_key t2 loc lim = KrogerSearch.search_key t1 loc lim)
    by (unfold KrogerSearch.search_key; rewrite Hs; reflexivity).
  rewrite Hk. set (key := KrogerSearch.search_key t1 loc lim) in *.
  destruct (KrogerSearch.redis_get key w) as [l0|] eqn:Hg.
  { injection E as _ <-. contradiction. }
  unfold KrogerSearch.call in E.
  destruct (api (KrogerSearch.Query t1 lim loc)) as [l1|e1].
  - injection E as -> <-. unfold w2.
    rewrite (SearchProofs.redis_set_get key l (60 * 60 * 6) _ d ltac:(lia)). reflexivity.
  - destruct (fb && negb (String.eqb loc "") && KrogerSearch.fallback_status e1).
    + destruct (api (KrogerSearch.Query t1 lim "")) as [l2|e2]; [|discriminate].
      injection E as -> <-. unfold w2.
      rewrite (SearchProofs.redis_set_get key l (60 * 60 * 6) _ d ltac:(lia)). reflexivity.
    + injection E as <- <-. unfold w2.
      rewrite (SearchProofs.redis_set_get key [] (60 * 10) _ d ltac:(lia)). reflexivity.
Qed.

(** searchProductsByTerm: it throws only when the located search failed with
    a 5xx, 429 or "-500" error, a location was given, the fallback was allowed,
    and the repeated search without location failed too; it then throws that
    second error and caches nothing. *)
Theorem search_throws_only_after_fallback {P} (api : KrogerSearch.query -> KrogerApi.outcome (list P))
    (t loc : string) (lim : N) (fb : bool) (w w1 : KrogerSearch.sworld) (e : KrogerApi.http_err) :
  KrogerSearch.searchProductsByTerm api t loc lim fb w = (KrogerApi.Err e, w1) ->
  exists e1, fb = true /\ loc <> ""%string /\ KrogerSearch.fallback_status e1 = true /\
    api (KrogerSearch.Query t lim loc) = KrogerApi.Err e1 /\
    api (KrogerSearch.Query t lim "") = KrogerApi.Err e /\
    KrogerSearch.cache w1 = KrogerSearch.cache w /\
    KrogerSearch.api_calls w1 = KrogerSearch.api_calls w ++
      [KrogerSearch.Query t lim loc; KrogerSearch.Query t lim ""].
Proof.
  intros E. unfold KrogerSearch.searchProductsByTerm, KrogerSearch.call in E.
  destruct (KrogerSearch.redis_get _ w); [discriminate|].
  destruct (api (KrogerSearch.Query t lim loc)) as [l1|e1] eqn:E1; [discriminate|].
  destruct (fb && negb (String.eqb loc "") && KrogerSearch.fallback_status e1) eqn:Ec; [|discriminate].
  destruct (api (KrogerSearch.Query t lim "")) as [l2|e2] eqn:E2; [discriminate|].
  injection E as -> <-. exists e1.
  apply andb_true_iff in Ec as [Ec Hf]. apply andb_true_iff in Ec as [Hb Hl].
  apply negb_true_iff, String.eqb_neq in Hl.
  repeat split; try assumption. cbn. rewrite <- app_assoc. reflexivity.
Qed.

Module StateProofs.
Import OAuthState.
Local Open Scope Z_scope.

Definition url_safe (c : ascii) : bool :=
  let n := byte c in
  ((65 <=? n) && (n <=? 90)) || ((97 <=? n) && (n <=? 122)) || ((48 <=? n) && (n <=? 57))
  || (n =? 45) || (n =? 95).

(** The full pipeline [b64u] then [parseB64u] applies to the characters. *)
Definition F (l : list ascii) : list ascii :=
  replace_char "_" (Some "/"%char) (replace_char "-" (Some "+"%char)
    (replace_char "/" (Some "_"%char) (replace_char "+" (Some "-"%char) (replace_char "=" None l)))).

Lemma replace_char_app x y a b : replace_char x y (a ++ b) = replace_char x y a ++ replace_char x y b.
Proof. unfold replace_char. apply flat_map_app. Qed.

Lemma F_app a b : F (a ++ b) = F a ++ F b.
Proof. unfold F. rewrite !replace_char_app. reflexivity. Qed.

Definition char_ok (i : Z) : bool :=
  negb (Ascii.eqb (b64_char i) "=") &&
  bool_decide (unb64 (b64_char i) = Some i) &&
  bool_decide (F [b64_char i] = [b64_char i]) &&
  forallb url_safe (replace_char "/" (Some "_"%char)
                      (replace_char "+" (Some "-"%char) (replace_char "=" None [b64_char i]))) &&
  negb (Ascii.eqb (b64_char i) ".").

Lemma char_ok_all i : 0 <= i < 64 -> char_ok i = true.
Proof.
  intros Hi.
  assert (H : forallb (fun n => char_ok (Z.of_nat n)) (seq 0 64) = true) by (vm_compute; reflexivity).
  rewrite forallb_forall in H. replace i with (Z.of_nat (Z.to_nat i)) by lia.
  apply H. apply in_seq. lia.
Qed.

Lemma char_facts i : 0 <= i < 64 ->
  Ascii.eqb (b64_char i) "=" = false /\ unb64 (b64_char i) = Some i /\
  F [b64_char i] = [b64_char i].
Proof.
  intros Hi. pose proof (char_ok_all i Hi) as H. unfold char_ok in H.
  repeat (apply andb_true_iff in H as [H ?]).
  apply negb_true_iff in H.
  repeat match goal with Hb : bool_decide _ = true |- _ => apply bool_decide_eq_true in Hb end.
  split; [exact H|split; assumption].
Qed.

Lemma F_eq : F ["="%char] = [].
Proof. reflexivity. Qed.

Lemma byte_range a : 0 <= byte a < 256.
Proof. unfold byte. pose proof (nat_ascii_bounded a). lia. Qed.

Lemma of_byte_byte a : of_byte (byte a) = a.
Proof. unfold of_byte, byte. rewrite Nat2Z.id. apply ascii_nat_embedding. Qed.

Lemma sextets_char i l : 0 <= i < 64 -> sextets (b64_char i :: l) = i :: sextets l.
Proof. intros Hi. destruct (char_facts i Hi) as [H1 [H2 _]]. cbn. rewrite H1, H2. reflexivity. Qed.

Lemma F_chars (is : list Z) rest :
  Forall (fun i => 0 <= i < 64) is ->
  F (map b64_char is ++ rest) = map b64_char is ++ F rest.
Proof.
  induction is as [|i is IH]; intros H; [reflexivity|].
  apply Forall_cons in H as [Hi H]. cbn [map app].
  change (b64_char i :: map b64_char is ++ rest) with ([b64_char i] ++ (map b64_char is ++ rest)).
  rewrite (F_app [b64_char i] (map b64_char is ++ rest)), IH by exact H.
  rewrite (proj2 (proj2 (char_facts i Hi))). reflexivity.
Qed.

Lemma sextets_chars (is : list Z) rest :
  Forall (fun i => 0 <= i < 64) is ->
  sextets (map b64_char is ++ rest) = is ++ sextets rest.
Proof.
  induction is as [|i is IH]; intros H; [reflexivity|].
  apply Forall_cons in H as [Hi H]. cbn [map app].
  rewrite sextets_char by exact Hi. rewrite IH by exact H. reflexivity.
Qed.

Lemma decode_encode l :
  b64_decode (F (b64_encode l)) = l.
Proof.
  induction l as [l IH] using (induction_ltof1 _ (@length ascii)). unfold ltof in IH.
  destruct l as [|a [|b [|c t]]]; [reflexivity| | |].
  - pose proof (byte_range a) as Ha. set (x := byte a) in *.
    assert (E : b64_encode [a] = map b64_char [x / 4; x mod 4 * 16] ++ ["="%char; "="%char]) by reflexivity.
    rewrite E, F_chars by (repeat (apply Forall_cons_2; [cbv beta; Z.div_mod_to_equations; lia|]); apply Forall_nil_2). unfold b64_decode.
    rewrite sextets_chars by (repeat (apply Forall_cons_2; [cbv beta; Z.div_mod_to_equations; lia|]); apply Forall_nil_2). cbn [app sextets Ascii.eqb].
    change (F ["="%char; "="%char]) with (@nil ascii). cbn [sextets b64_groups].
    replace (x / 4 * 4 + x mod 4 * 16 / 16) with x by (Z.div_mod_to_equations; lia).
    unfold x. rewrite of_byte_byte. reflexivity.
  - pose proof (byte_range a) as Ha. pose proof (byte_range b) as Hb.
    set (x := byte a) in *. set (y := byte b) in *.
    assert (E : b64_encode [a; b] =
      map b64_char [x / 4; x mod 4 * 16 + y / 16; y mod 16 * 4] ++ ["="%char]) by reflexivity.
    rewrite E, F_chars by (repeat (apply Forall_cons_2; [cbv beta; Z.div_mod_to_equations; lia|]); apply Forall_nil_2). unfold b64_decode.
    rewrite sextets_chars by (repeat (apply Forall_cons_2; [cbv beta; Z.div_mod_to_equations; lia|]); apply Forall_nil_2).
    change (F ["="%char]) with (@nil ascii). cbn [app sextets b64_groups].
    replace (x / 4 * 4 + (x mod 4 * 16 + y / 16) / 16) with x by (Z.div_mod_to_equations; lia).
    replace ((x mod 4 * 16 + y / 16) mod 16 * 16 + y mod 16 * 4 / 4) with y by (Z.div_mod_to_equations; lia).
    unfold x, y. rewrite !of_byte_byte. reflexivity.
  - pose proof (byte_range a) as Ha. pose proof (byte_range b) as Hb. pose proof (byte_range c) as Hc.
    set (x := byte a) in *. set (y := byte b) in *. set (z := byte c) in *.
    assert (E : b64_encode (a :: b :: c :: t) =
      map b64_char [x / 4; x mod 4 * 16 + y / 16; y mod 16 * 4 + z / 64; z mod 64] ++ b64_encode t)
      by reflexivity.
    rewrite E, F_chars by (repeat (apply Forall_cons_2; [cbv beta; Z.div_mod_to_equations; lia|]); apply Forall_nil_2). unfold b64_decode.
    rewrite sextets_chars by (repeat (apply Forall_cons_2; [cbv beta; Z.div_mod_to_equations; lia|]); apply Forall_nil_2). cbn [app b64_groups].
    fold (b64_decode (F (b64_encode t))). rewrite IH by (cbn; lia).
    replace (x / 4 * 4 + (x mod 4 * 16 + y / 16) / 16) with x by (Z.div_mod_to_equations; lia).
    replace ((x mod 4 * 16 + y / 16) mod 16 * 16 + (y mod 16 * 4 + z / 64) / 4) with y by (Z.div_mod_to_equations; lia).
    replace ((y mod 16 * 4 + z / 64) mod 4 * 64 + z mod 64) with z by (Z.div_mod_to_equations; lia).
    unfold x, y, z. rewrite !of_byte_byte. reflexivity.
Qed.

Definition G (l : list ascii) : list ascii :=
  replace_char "/" (Some "_"%char) (replace_char "+" (Some "-"%char) (replace_char "=" None l)).

Lemma G_app a b : G (a ++ b) = G a ++ G b.
Proof. unfold G. rewrite !replace_char_app. reflexivity. Qed.

Lemma G_chars (is : list Z) rest :
  Forall (fun i => 0 <= i < 64) is ->
  Forall (fun c => url_safe c = true) (G rest) ->
  Forall (fun c => url_safe c = true) (G (map b64_char is ++ rest)).
Proof.
  induction is as [|i is IH]; intros H Hr; [exact Hr|].
  apply Forall_cons in H as [Hi H]. cbn [map app].
  change (b64_char i :: map b64_char is ++ rest) with ([b64_char i] ++ (map b64_char is ++ rest)).
  rewrite G_app. apply Forall_app. split; [|exact (IH H Hr)].
  pose proof (char_ok_all i Hi) as Hc. unfold char_ok in Hc.
  repeat (apply andb_true_iff in Hc as [Hc ?]).
  apply Forall_forall. intros c Hin. apply list_elem_of_In in Hin.
  match goal with Hf : forallb url_safe _ = true |- _ =>
    rewrite forallb_forall in Hf; apply Hf; exact Hin end.
Qed.

Ltac rng := repeat (apply Forall_cons_2; [cbv beta; Z.div_mod_to_equations; lia|]); apply Forall_nil_2.

Lemma b64u_url_safe l : Forall (fun c => url_safe c = true) (b64u_l l).
Proof.
  change (b64u_l l) with (G (b64_encode l)).
  induction l as [l IH] using (induction_ltof1 _ (@length ascii)). unfold ltof in IH.
  destruct l as [|a [|b [|c t]]]; [constructor| | |].
  - pose proof (byte_range a) as Ha. set (x := byte a) in *.
    assert (E : b64_encode [a] = map b64_char [x / 4; x mod 4 * 16] ++ ["="%char; "="%char]) by reflexivity.
    rewrite E. apply G_chars; [rng|constructor].
  - pose proof (byte_range a) as Ha. pose proof (byte_range b) as Hb.
    set (x := byte a) in *. set (y := byte b) in *.
    assert (E : b64_encode [a; b] =
      map b64_char [x / 4; x mod 4 * 16 + y / 16; y mod 16 * 4] ++ ["="%char]) by reflexivity.
    rewrite E. apply G_chars; [rng|constructor].
  - pose proof (byte_range a) as Ha. pose proof (byte_range b) as Hb. pose proof (byte_range c) as Hc.
    set (x := byte a) in *. set (y := byte b) in *. set (z := byte c) in *.
    assert (E : b64_encode (a :: b :: c :: t) =
      map b64_char [x / 4; x mod 4 * 16 + y / 16; y mod 16 * 4 + z / 64; z mod 64] ++ b64_encode t)
      by reflexivity.
    rewrite E. apply G_chars; [rng|]. apply IH. cbn. lia.
Qed.

Lemma url_safe_not_dot c : url_safe c = true -> Ascii.eqb c "." = false.
Proof.
  intros H. apply Ascii.eqb_neq. intros ->. discriminate H.
Qed.

Definition nodot (p : list ascii) : Prop := Forall (fun c => Ascii.eqb c "." = false) p.

Lemma split_dot_nonempty r : split_dot r <> [].
Proof. destruct r as [|c r]; cbn; [discriminate|]. destruct (Ascii.eqb c "."); [discriminate|].
  destruct (split_dot r); discriminate. Qed.

Lemma split_dot_app p r :
  nodot p ->
  split_dot (p ++ r) = match split_dot r with w :: r' => (p ++ w) :: r' | [] => [p] end.
Proof.
  induction p as [|c p IH]; intros H; cbn [app].
  - destruct (split_dot r) eqn:E; [exfalso; exact (split_dot_nonempty r E)|reflexivity].
  - apply Forall_cons in H as [Hc H]. cbn [split_dot]. rewrite IH by exact H. rewrite Hc.
    destruct (split_dot r); reflexivity.
Qed.



Lemma split_dot_dot r : split_dot ("."%char :: r) = [] :: split_dot r.
Proof. reflexivity. Qed.

Definition join_dot (ps : list (list ascii)) : list ascii :=
  match ps with
  | [] => []
  | p :: ps' => p ++ concat (map (fun q => "."%char :: q) ps')
  end.

Lemma split_dot_join l : join_dot (split_dot l) = l /\ Forall nodot (split_dot l).
Proof.
  induction l as [|c l [IH1 IH2]]; [split; [reflexivity|repeat constructor]|].
  cbn [split_dot]. destruct (Ascii.eqb c ".") eqn:Ec.
  - apply Ascii.eqb_eq in Ec. subst c. split; [|constructor; [constructor|exact IH2]].
    destruct (split_dot l) as [|w r'] eqn:E; [exfalso; exact (split_dot_nonempty l E)|].
    cbn in *. rewrite <- IH1. reflexivity.
  - destruct (split_dot l) as [|w r'] eqn:E; [exfalso; exact (split_dot_nonempty l E)|].
    apply Forall_cons in IH2 as [Hw Hr]. split.
    + cbn in *. rewrite <- IH1. reflexivity.
    + constructor; [constructor; assumption|exact Hr].
Qed.

Lemma list_ascii_append s1 s2 :
  list_ascii_of_string (s1 +:+ s2) = list_ascii_of_string s1 ++ list_ascii_of_string s2.
Proof. induction s1 as [|c s1 IH]; [reflexivity|]. simpl. rewrite IH. reflexivity. Qed.

Lemma nodot_of_url l : Forall (fun c => url_safe c = true) l -> nodot l.
Proof. intros H. eapply Forall_impl; [exact H|]. intros c. apply url_safe_not_dot. Qed.

End StateProofs.

Import OAuthState StateProofs.

(** sign / verify: a signed state is URL-safe text of the form body.sig, and
    verify returns the signed object for it, also when more dot-separated
    segments are appended, provided JSON.parse reads back what
    JSON.stringify wrote. *)
Theorem verify_sign_roundtrip {obj} (stringify : obj -> string) (parse : string -> option obj)
    (hmac : string -> list ascii) (o : obj) (junk : string) :
  parse (stringify o) = Some o ->
  (exists body sig, list_ascii_of_string (OAuthState.sign stringify hmac o) = body ++ "."%char :: sig /\
     Forall (fun c => url_safe c = true) body /\ Forall (fun c => url_safe c = true) sig) /\
  OAuthState.verify parse hmac (OAuthState.sign stringify hmac o) = Some o /\
  OAuthState.verify parse hmac (OAuthState.sign stringify hmac o +:+ "." +:+ junk) = Some o.
Proof.
  intros Hj.
  set (body := OAuthState.b64u_l (list_ascii_of_string (stringify o))).
  set (sig := OAuthState.b64u_l (hmac (string_of_list_ascii body))).
  assert (Hs : list_ascii_of_string (OAuthState.sign stringify hmac o) = body ++ "."%char :: sig).
  { unfold OAuthState.sign, OAuthState.digest_b64url, OAuthState.b64u.
    rewrite !list_ascii_append, !list_ascii_of_string_of_list_ascii. reflexivity. }
  assert (Hb : nodot body) by apply nodot_of_url, b64u_url_safe.
  assert (Hg : nodot sig) by apply nodot_of_url, b64u_url_safe.
  assert (Hparse : OAuthState.parseB64u parse (string_of_list_ascii body) = Some o).
  { unfold OAuthState.parseB64u. rewrite list_ascii_of_string_of_list_ascii.
    unfold body, OAuthState.b64u_l.
    change (OAuthState.replace_char "_" (Some "/"%char) (OAuthState.replace_char "-" (Some "+"%char)
      (OAuthState.replace_char "/" (Some "_"%char) (OAuthState.replace_char "+" (Some "-"%char)
        (OAuthState.replace_char "=" None (OAuthState.b64_encode (list_ascii_of_string (stringify o)))))))) with
      (F (OAuthState.b64_encode (list_ascii_of_string (stringify o)))).
    rewrite decode_encode, string_of_list_ascii_of_string. exact Hj. }
  assert (Hv : forall rest, (rest = [] \/ exists r, rest = "."%char :: r) ->
            OAuthState.verify parse hmac (string_of_list_ascii (body ++ "."%char :: sig ++ rest)) = Some o).
  { intros rest Hr. unfold OAuthState.verify. rewrite list_ascii_of_string_of_list_ascii.
    rewrite bool_decide_eq_false_2 by (destruct body; discriminate).
    assert (He : existsb (fun c => Ascii.eqb c ".") (body ++ "."%char :: sig ++ rest) = true).
    { apply existsb_exists. exists "."%char. split; [apply in_or_app; right; left; reflexivity|reflexivity]. }
    rewrite He. cbn [negb].
    rewrite split_dot_app by exact Hb. rewrite split_dot_dot.
    rewrite split_dot_app by exact Hg. cbn iota.
    assert (Hsig : exists tl, (match split_dot rest with w :: r' => (sig ++ w) :: r' | [] => [sig] end) = sig :: tl).
    { destruct Hr as [->|[r ->]]; [exists []; cbn; rewrite app_nil_r; reflexivity|].
      rewrite split_dot_dot. exists (split_dot r). rewrite app_nil_r. reflexivity. }
    destruct Hsig as [tl ->].
    assert (Ed : String.eqb (string_of_list_ascii sig)
                   (OAuthState.digest_b64url hmac (string_of_list_ascii body)) = true)
      by (apply String.eqb_eq; reflexivity).
    rewrite !app_nil_r, Ed. exact Hparse. }
  split; [exists body, sig; split; [exact Hs|split; apply b64u_url_safe]|]. split.
  - rewrite <- (string_of_list_ascii_of_string (OAuthState.sign stringify hmac o)), Hs.
    rewrite <- (app_nil_r sig). apply Hv. left. reflexivity.
  - rewrite <- (string_of_list_ascii_of_string (OAuthState.sign stringify hmac o +:+ "." +:+ junk)).
    rewrite !list_ascii_append, Hs. cbn [list_ascii_of_string].
    replace ((body ++ "."%char :: sig) ++ ["."%char] ++ list_ascii_of_string junk)
      with (body ++ "."%char :: sig ++ "."%char :: list_ascii_of_string junk)
      by (rewrite <- app_assoc; reflexivity).
    apply Hv. right. eexists. reflexivity.
Qed.

(** verify: it only accepts a state whose second dot-separated segment is the
    HMAC signature of the first, and then returns what that first segment
    decodes to. *)
Theorem verify_requires_signature {obj} (parse : string -> option obj)
    (hmac : string -> list ascii) (s : string) (o : obj) :
  OAuthState.verify parse hmac s = Some o ->
  exists body sig rest,
    list_ascii_of_string s = body ++ "."%char :: sig ++ rest /\
    nodot body /\ nodot sig /\ (rest = [] \/ exists r, rest = "."%char :: r) /\
    string_of_list_ascii sig = OAuthState.digest_b64url hmac (string_of_list_ascii body) /\
    OAuthState.parseB64u parse (string_of_list_ascii body) = Some o.
Proof.
  unfold OAuthState.verify. intros E.
  destruct (bool_decide _); [discriminate|].
  destruct (negb _); [discriminate|].
  pose proof (split_dot_join (list_ascii_of_string s)) as [J N].
  destruct (split_dot (list_ascii_of_string s)) as [|body [|sig tl]]; try discriminate.
  destruct (String.eqb _ _) eqn:Es; [|discriminate].
  apply String.eqb_eq in Es.
  apply Forall_cons in N as [Nb N]. apply Forall_cons in N as [Ns _].
  exists body, sig, (concat (map (fun q => "."%char :: q) tl)).
  split; [cbn in J; rewrite <- J; reflexivity|].
  split; [exact Nb|]. split; [exact Ns|]. split; [|split; [exact Es|exact E]].
  destruct tl as [|q tl]; [left; reflexivity|right; eexists; reflexivity].
Qed.

Module PipelineProofs.
Import Pipeline.







End PipelineProofs.




(** getLocationIdByZip: a call that finds no location id or throws queried
    [/locations] for the zip and wrote nothing to the cache, so a missing id
    is looked up again on every call. *)
Theorem locid_miss_not_cached (api : string -> KrogerApi.outcome (option string))
    (zip : string) (w w1 : KrogerLoc.lworld) (r : KrogerApi.outcome (option string)) :
  KrogerLoc.getLocationIdByZip api zip w = (r, w1) ->
  (r = KrogerApi.Ok None \/ exists e, r = KrogerApi.Err e) ->
  KrogerLoc.lcache w1 = KrogerLoc.lcache w /\ KrogerLoc.lcalls w1 = KrogerLoc.lcalls w ++ [zip].
Proof.
  unfold KrogerLoc.getLocationIdByZip. cbv zeta. intros E Hr.
  repeat case_match; injection E as <- <-;
    try (destruct Hr as [Hx|[e' Hx]]; discriminate); split; reflexivity.
Qed.

(** getLocationIdByZip: a location id found by a query to [/locations] is
    non-empty and is answered from the cache, with no further query, for the
    next seven days to every zip code of the same slug. *)
Theorem locid_found_cached (api api' : string -> KrogerApi.outcome (option string))
    (zip zip' id : string) (w w1 : KrogerLoc.lworld) (d : Z) :
  KrogerLoc.getLocationIdByZip api zip w = (KrogerApi.Ok (Some id), w1) ->
  KrogerLoc.lcalls w1 <> KrogerLoc.lcalls w ->
  KrogerSearch.slug zip' = KrogerSearch.slug zip ->
  (0 <= d < 60 * 60 * 24 * 7)%Z ->
  let w2 := {| KrogerLoc.lcache := KrogerLoc.lcache w1; KrogerLoc.lclock := (KrogerLoc.lclock w1 + d)%Z;
               KrogerLoc.lcalls := KrogerLoc.lcalls w1 |} in
  id <> ""%string /\ KrogerLoc.getLocationIdByZip api' zip' w2 = (KrogerApi.Ok (Some id), w2).
Proof.
  intros E Hc Hs Hd w2.
  assert (Hid : id <> ""%string /\ KrogerLoc.lcache w1 = <[KrogerLoc.loc_key zip := (id, (KrogerLoc.lclock w + 60 * 60 * 24 * 7)%Z)]> (KrogerLoc.lcache w) /\ KrogerLoc.lclock w1 = KrogerLoc.lclock w).
  { unfold KrogerLoc.getLocationIdByZip in E. cbv zeta in E.
    repeat case_match; try congruence; injection E as <- <-;
      match goal with Hq : (_ =? "")%string = false |- _ => apply String.eqb_neq in Hq end;
      (split; [congruence|split; reflexivity]). }
  destruct Hid as [Hne [Hcache Hclk]]. split; [exact Hne|].
  unfold KrogerLoc.getLocationIdByZip. cbv zeta.
  assert (Hk : KrogerLoc.loc_key zip' = KrogerLoc.loc_key zip) by (unfold KrogerLoc.loc_key; rewrite Hs; reflexivity).
  assert (Hg : KrogerLoc.lredis_get (KrogerLoc.loc_key zip') w2 = Some id).
  { unfold KrogerLoc.lredis_get, w2. cbn [KrogerLoc.lcache KrogerLoc.lclock].
    rewrite Hk, Hcache, lookup_insert_eq, Hclk.
    replace (KrogerLoc.lclock w + d <? KrogerLoc.lclock w + 60 * 60 * 24 * 7)%Z with true by lia.
    reflexivity. }
  rewrite Hg. apply String.eqb_neq in Hne. rewrite Hne. reflexivity.
Qed.

(** getAppToken: once it has handed out a non-empty token, every later call
    made while the clock is more than 60 s before the recorded expiry returns
    that token without a new request; after a request, that expiry is the
    request time plus [expires_in] (1799 s when absent or 0). *)
Theorem app_token_reused (req req' : nat -> KrogerApi.retry_result AppToken.token_data)
    (w w1 : AppToken.tworld) (a : string) (t : Z) :
  AppToken.getAppToken req w = (KrogerApi.Returned (Some a), w1) ->
  a <> ""%string ->
  (t < AppToken.appTokenExp w1 - 60)%Z ->
  (AppToken.token_requests w1 = S (AppToken.token_requests w) ->
   exists data, req (AppToken.token_requests w) = KrogerApi.Returned data /\
     AppToken.appTokenExp w1 = (AppToken.tnow w + AppToken.expires_or_default (AppToken.expires_in data))%Z) /\
  let w2 := {| AppToken.appToken := AppToken.appToken w1; AppToken.appTokenExp := AppToken.appTokenExp w1;
               AppToken.tnow := t; AppToken.token_requests := AppToken.token_requests w1 |} in
  AppToken.getAppToken req' w2 = (KrogerApi.Returned (Some a), w2).
Proof.
  intros E Ha Ht.
  assert (Hw1 : AppToken.appToken w1 = Some a /\
    (AppToken.token_requests w1 = S (AppToken.token_requests w) ->
     exists data, req (AppToken.token_requests w) = KrogerApi.Returned data /\
       AppToken.appTokenExp w1 = (AppToken.tnow w + AppToken.expires_or_default (AppToken.expires_in data))%Z)).
  { unfold AppToken.getAppToken in E. cbv zeta in E.
    destruct (AppToken.truthy (AppToken.appToken w) && (AppToken.tnow w <? AppToken.appTokenExp w - 60))%Z.
    - injection E as E <-. rewrite E. split; [reflexivity|]. intros H. lia.
    - destruct (req (AppToken.token_requests w)) as [data|e] eqn:Er; [|discriminate].
      injection E as E <-. cbn. split; [exact E|]. intros _. exists data. split; reflexivity. }
  destruct Hw1 as [Htok Hexp]. split; [exact Hexp|].
  cbv zeta. unfold AppToken.getAppToken. cbn [AppToken.appToken AppToken.tnow AppToken.appTokenExp].
  rewrite Htok. unfold AppToken.truthy. apply String.eqb_neq in Ha. rewrite Ha.
  replace (t <? AppToken.appTokenExp w1 - 60)%Z with true by lia. reflexivity.
Qed.

(* ------------------------------------------------------------------ *)
(** ** Concrete instances of the properties with hypotheses *)

Lemma pickBestImage_first_min_rank_witness :
  Images.pickBestImage
    [Images.Image "side" [Images.ISize "large" "L"];
     Images.Image "front" [Images.ISize "small" "S"; Images.ISize "large" "F"]] = "F"%string.
Proof.
  apply (pickBestImage_first_min_rank _ [Images.ISize "small" "S"] (Images.ISize "large" "F")
           [Images.ISize "large" "L"]).
  - vm_compute. reflexivity.
  - repeat constructor.
  - repeat constructor; vm_compute; discriminate.
Defined.

Lemma getValidUserToken_stable_witness :
  let R := Cart.Remote (fun _ => Some ("acc2"%string, None, 3600%Z)) (fun _ _ _ => 200%Z) in
  let u0 := Cart.KCred (Some "old"%string) (Some 0%Z) (Some "rt"%string) ∅ in
  let u1 := Cart.KCred (Some "acc2"%string) (Some 3601000%Z) (Some "rt"%string) ∅ in
  let w0 := Cart.World None 1000%Z [] in
  let w1 := Cart.World (Some u1) 1000%Z [Cart.CTokenRequest; Cart.CSave] in
  Cart.getValidUserToken R u0 w0 = ((Some "acc2"%string, u1), w1) /\
  Cart.getValidUserToken R u1 w1 = ((Some "acc2"%string, u1), w1).
Proof.
  cbv zeta. assert (E : Cart.getValidUserToken
    (Cart.Remote (fun _ => Some ("acc2"%string, None, 3600%Z)) (fun _ _ _ => 200%Z))
    (Cart.KCred (Some "old"%string) (Some 0%Z) (Some "rt"%string) ∅) (Cart.World None 1000%Z []) =
    ((Some "acc2"%string, Cart.KCred (Some "acc2"%string) (Some 3601000%Z) (Some "rt"%string) ∅),
     Cart.World (Some (Cart.KCred (Some "acc2"%string) (Some 3601000%Z) (Some "rt"%string) ∅)) 1000%Z
       [Cart.CTokenRequest; Cart.CSave])) by (vm_compute; reflexivity).
  split; [exact E|].
  refine (proj2 (proj2 (TokenProofs.getValidUserToken_stable _ _ _ _ _ _ _ E _))).
  - intros rt a nr e H. injection H as <- _ <-. split; [discriminate|lia].
  - discriminate.
Defined.

Lemma search_cache_shared_witness :
  let api := fun _ : KrogerSearch.query => KrogerApi.Ok [1; 2]%nat in
  let w0 := KrogerSearch.SWorld (P := nat) ∅ 0%Z [] in
  let w1 := (KrogerSearch.searchProductsByTerm api "Milk" "L1" 10 true w0).2 in
  let w2 := {| KrogerSearch.cache := KrogerSearch.cache w1;
               KrogerSearch.clock := (KrogerSearch.clock w1 + 599)%Z;
               KrogerSearch.api_calls := KrogerSearch.api_calls w1 |} in
  KrogerSearch.searchProductsByTerm (fun _ => KrogerApi.Err (KrogerApi.HttpErr (Some 500%Z) None))
    "milk" "L1" 10 false w2 = (KrogerApi.Ok [1; 2]%nat, w2).
Proof.
  cbv zeta.
  apply (search_cache_shared (fun _ => KrogerApi.Ok [1; 2]%nat) _ "Milk" "milk" "L1" 10 true false
           (KrogerSearch.SWorld ∅ 0%Z []) _ [1; 2]%nat 599%Z).
  - vm_compute. reflexivity.
  - vm_compute. discriminate.
  - vm_compute. reflexivity.
  - lia.
Defined.

Lemma search_throws_only_after_fallback_witness :
  let api := fun _ : KrogerSearch.query => @KrogerApi.Err (list nat) (KrogerApi.HttpErr (Some 503%Z) None) in
  let w0 := KrogerSearch.SWorld (P := nat) ∅ 0%Z [] in
  KrogerSearch.searchProductsByTerm api "milk" "L1" 10 true w0 =
    (KrogerApi.Err (KrogerApi.HttpErr (Some 503%Z) None),
     (KrogerSearch.searchProductsByTerm api "milk" "L1" 10 true w0).2) /\
  KrogerSearch.api_calls (KrogerSearch.searchProductsByTerm api "milk" "L1" 10 true w0).2 =
    [KrogerSearch.Query "milk" 10 "L1"; KrogerSearch.Query "milk" 10 ""].
Proof.
  cbv zeta.
  assert (E : KrogerSearch.searchProductsByTerm
    (fun _ : KrogerSearch.query => @KrogerApi.Err (list nat) (KrogerApi.HttpErr (Some 503%Z) None))
    "milk" "L1" 10 true (KrogerSearch.SWorld ∅ 0%Z []) =
    (KrogerApi.Err (KrogerApi.HttpErr (Some 503%Z) None),
     (KrogerSearch.searchProductsByTerm
        (fun _ : KrogerSearch.query => @KrogerApi.Err (list nat) (KrogerApi.HttpErr (Some 503%Z) None))
        "milk" "L1" 10 true (KrogerSearch.SWorld ∅ 0%Z [])).2)) by (vm_compute; reflexivity).
  split; [exact E|].
  destruct (search_throws_only_after_fallback _ _ _ _ _ _ _ _ E) as (e1 & _ & _ & _ & _ & _ & _ & H).
  exact H.
Defined.

Lemma verify_sign_roundtrip_witness :
  (@Some string) ((fun s : string => s) "state-42"%string) = Some "state-42"%string /\
  OAuthState.verify (@Some string) list_ascii_of_string
    (OAuthState.sign (fun s : string => s) list_ascii_of_string "state-42" +:+ "." +:+ "tail") =
    Some "state-42"%string.
Proof.
  split; [reflexivity|].
  exact (proj2 (proj2 (verify_sign_roundtrip (fun s : string => s) (@Some string) list_ascii_of_string
                         "state-42" "tail" eq_refl))).
Defined.

Lemma verify_requires_signature_witness :
  let s := OAuthState.sign (fun x : string => x) list_ascii_of_string "state-42" in
  OAuthState.verify (@Some string) list_ascii_of_string s = Some "state-42"%string /\
  exists body sig rest, list_ascii_of_string s = body ++ "."%char :: sig ++ rest /\
    OAuthState.parseB64u (@Some string) (string_of_list_ascii body) = Some "state-42"%string.
Proof.
  cbv zeta.
  assert (H : OAuthState.verify (@Some string) list_ascii_of_string
                (OAuthState.sign (fun x : string => x) list_ascii_of_string "state-42") =
              Some "state-42"%string) by (vm_compute; reflexivity).
  split; [exact H|].
  destruct (verify_requires_signature _ _ _ _ H) as (b & sg & r & E & _ & _ & _ & _ & P).
  exists b, sg, r. split; assumption.
Defined.

Lemma locid_miss_not_cached_witness :
  let w0 := KrogerLoc.LWorld ∅ 0%Z [] in
  let api := fun _ : string => @KrogerApi.Ok (option string) None in
  KrogerLoc.lcache (KrogerLoc.getLocationIdByZip api "45202" w0).2 = KrogerLoc.lcache w0 /\
  KrogerLoc.lcalls (KrogerLoc.getLocationIdByZip api "45202" w0).2 = KrogerLoc.lcalls w0 ++ ["45202"%string].
Proof.
  cbv zeta.
  apply (locid_miss_not_cached (fun _ => KrogerApi.Ok None) "45202" (KrogerLoc.LWorld ∅ 0%Z []) _
           (KrogerApi.Ok None)).
  - vm_compute. reflexivity.
  - left. reflexivity.
Defined.

Lemma locid_found_cached_witness :
  let api := fun _ : string => KrogerApi.Ok (Some "01400376"%string) in
  let w1 := (KrogerLoc.getLocationIdByZip api "45202" (KrogerLoc.LWorld ∅ 0%Z [])).2 in
  let w2 := {| KrogerLoc.lcache := KrogerLoc.lcache w1; KrogerLoc.lclock := (KrogerLoc.lclock w1 + 3600)%Z;
               KrogerLoc.lcalls := KrogerLoc.lcalls w1 |} in
  KrogerLoc.getLocationIdByZip (fun _ => KrogerApi.Err (KrogerApi.HttpErr (Some 500%Z) None)) " 45202 " w2 =
    (KrogerApi.Ok (Some "01400376"%string), w2).
Proof.
  cbv zeta.
  refine (proj2 (locid_found_cached (fun _ => KrogerApi.Ok (Some "01400376"%string)) _ "45202" " 45202 "
                   "01400376" (KrogerLoc.LWorld ∅ 0%Z []) _ 3600%Z _ _ _ _)).
  - vm_compute. reflexivity.
  - vm_compute. discriminate.
  - vm_compute. reflexivity.
  - lia.
Defined.

Lemma app_token_reused_witness :
  let req := fun _ : nat => KrogerApi.Returned (AppToken.TokenData (Some "tok"%string) (Some 1800%Z)) in
  let w0 := AppToken.TWorld None 0%Z 1000%Z 0 in
  let w1 := AppToken.TWorld (Some "tok"%string) 2800%Z 1000%Z 1 in
  AppToken.getAppToken req w0 = (KrogerApi.Returned (Some "tok"%string), w1) /\
  AppToken.getAppToken (fun _ => KrogerApi.Thrown None) (AppToken.TWorld (Some "tok"%string) 2800%Z 2000%Z 1) =
    (KrogerApi.Returned (Some "tok"%string), AppToken.TWorld (Some "tok"%string) 2800%Z 2000%Z 1).
Proof.
  cbv zeta.
  assert (E : AppToken.getAppToken
                (fun _ : nat => KrogerApi.Returned (AppToken.TokenData (Some "tok"%string) (Some 1800%Z)))
                (AppToken.TWorld None 0%Z 1000%Z 0) =
              (KrogerApi.Returned (Some "tok"%string), AppToken.TWorld (Some "tok"%string) 2800%Z 1000%Z 1))
    by (vm_compute; reflexivity).
  split; [exact E|].
  exact (proj2 (app_token_reused _ (fun _ => KrogerApi.Thrown None) _ _ "tok" 2000%Z E
                  ltac:(discriminate) ltac:(vm_compute; reflexivity))).
Defined.
